(** * Gohan: transaction contract, the script-facing sync bridge and the CLI template helpers

    Shallow embedding of [db/transaction/transaction.go], of the
    [gohan_sync_fetch] / [gohan_sync_watch] builtins of the otto extension
    (the [sync.go] file of [extension/otto]), of parts of
    [extension/otto/gohan_core.go] and of [cli/template.go]. *)

From stdpp Require Import base gmap strings list pretty.
From Stdlib Require Import ZArith Ascii.

Open Scope string_scope.
Set Warnings "-register-all".

(** ** Go values stored behind [interface{}] *)

(** [transaction.Type] is a Go named string type; Rocq reserves the name
    [Type], so it is [IsoType] here. *)
Record IsoType := MkIsoType { iso_str : string }.

(** A dynamically typed Go value, as held by a [map[string]interface{}]. *)
Inductive GoValue :=
  | GoType (t : IsoType)
  | GoString (s : string)
  | GoInt (z : Z)
  | GoBool (b : bool)
  | GoNil.

(** A Go call either returns or panics. *)
Inductive GoResult (A : Type) :=
  | Returns (a : A)
  | Panics (msg : string).
Arguments Returns {A} a.
Arguments Panics {A} msg.

Module Transaction.

(** The four [Type] constants of [transaction.go]. *)
Definition ReadUncommited : IsoType := MkIsoType "READ UNCOMMITTED".
Definition ReadCommited : IsoType := MkIsoType "READ COMMITTED".
Definition RepeatableRead : IsoType := MkIsoType "REPEATABLE READ".
Definition Serializable : IsoType := MkIsoType "Serializable".

(** [LockPolicy] ([iota] constants). *)
Inductive LockPolicy := LockRelatedResources | SkipRelatedResources.

(** [ResourceState]. *)
Record ResourceState := {
  ConfigVersion : Z;
  StateVersion : Z;
  Error : string;
  State : string;
  Monitoring : string
}.

(** The part of [schema.Schema] read by [GetIsolationLevel]: its
    [IsolationLevel map[string]interface{}] field. A nil map reads as
    the empty map. *)
Record Schema := { IsolationLevel : gmap string GoValue }.

(** [Filter map[string]interface{}]. *)
Abbreviation Filter := (gmap string GoValue).

(** Go's checked type assertion [level.(Type)]: it panics unless the
    dynamic type of the value is [Type]. *)
Definition assert_Type (v : GoValue) : GoResult IsoType :=
  match v with
  | GoType t => Returns t
  | _ => Panics "interface conversion: interface {} is not transaction.Type"
  end.

(** [GetIsolationLevel]. *)
Definition GetIsolationLevel (s : Schema) (action : string) : GoResult IsoType :=
  match IsolationLevel s !! action with
  | None =>
      if String.eqb action "read" then Returns RepeatableRead
      else Returns Serializable
  | Some level => assert_Type level
  end.

(** [IDFilter]. *)
Definition IDFilter (ID : GoValue) : Filter := {[ "id" := ID ]}.

(** The schema of the examples below: a [create] override stored as a
    plain string, a [read] override stored as a [Type]. *)
Definition string_override_schema : Schema :=
  {| IsolationLevel := <["read" := GoType ReadCommited]>
                         {["create" := GoString "SERIALIZABLE"]} |}.

End Transaction.

(** ** Transaction lifecycle *)

Module TxLifecycle.

(** Error kinds of the transaction contract. *)
Inductive TxError :=
  | NotFound
  | ConstraintViolation
  | LockConflict
  | TransactionClosed
  | BackendError (msg : string).

(** Lifecycle phases: Open, Committed, Closed. *)
Inductive TxPhase := Open | Committed | Closed.

(** The operations of the [Transaction] interface, by name. *)
Inductive TxOp :=
  | OpCreate | OpUpdate | OpDelete | OpFetch | OpList
  | OpLockFetch | OpLockList | OpStateFetch | OpStateUpdate
  | OpQuery | OpCommit | OpClose.

Section Lifecycle.

(** What the backing store answers to an operation issued before the
    transaction is closed, given the operations already run on the
    handle: [None] is success. Left abstract: any backend. *)
Variable backend : list TxOp -> TxPhase -> TxOp -> option TxError.

(** Modelled from the spec: the concrete implementations of the
    [Transaction] interface (the SQL-backed and in-memory adapters) are
    not in the sources. Per the spec, [Close] is idempotent and moves any
    phase to Closed; [Commit] from Open moves to Committed when the store
    accepts it; any operation invoked after [Close] (including [Commit])
    fails with [TransactionClosed]; otherwise the backend answers. *)
Definition tx_step (hist : list TxOp) (p : TxPhase) (op : TxOp)
  : TxPhase * option TxError :=
  match p, op with
  | Closed, OpClose => (Closed, None)
  | Closed, _ => (Closed, Some TransactionClosed)
  | _, OpClose => (Closed, None)
  | Open, OpCommit =>
      match backend hist Open OpCommit with
      | None => (Committed, None)
      | Some e => (Open, Some e)
      end
  | _, _ => (p, backend hist p op)
  end.

(** [Closed()]. *)
Definition tx_Closed (p : TxPhase) : bool :=
  match p with Closed => true | _ => false end.

(** Runs a sequence of operations on a handle, returning the final phase
    and the result of each operation. *)
Fixpoint tx_run (hist : list TxOp) (p : TxPhase) (ops : list TxOp)
  : TxPhase * list (option TxError) :=
  match ops with
  | [] => (p, [])
  | op :: rest =>
      let '(p', r) := tx_step hist p op in
      let '(pf, rs) := tx_run (hist ++ [op]) p' rest in
      (pf, r :: rs)
  end.

End Lifecycle.

End TxLifecycle.

(** ** The otto sync builtins *)

Module SyncBridge.

(** Values as the script VM sees them. Objects are listed by field. *)
Inductive OttoValue :=
  | OVUndefined
  | OVNull
  | OVBool (b : bool)
  | OVNumber (n : Z)
  | OVString (s : string)
  | OVArray (xs : list OttoValue)
  | OVObject (fields : list (string * OttoValue)).

(** [sync.Event]. *)
Record Event := {
  Action : string;
  Key : string;
  Data : OttoValue;
  Revision : Z
}.

(** [sync.Node]. *)
Inductive Node := MkNode {
  NKey : string;
  NValue : string;
  NRevision : Z;
  NChildren : list Node
}.

(** [convertSyncEvent], followed by [vm.ToValue] (total on these maps). *)
Definition convertSyncEvent (e : Event) : OttoValue :=
  OVObject [("action", OVString (Action e)); ("key", OVString (Key e));
            ("data", Data e); ("revision", OVNumber (Revision e))].

(** [convertSyncNode] and [convertSyncNodes]. *)
Fixpoint convertSyncNode (n : Node) : OttoValue :=
  match n with
  | MkNode k v r cs =>
      OVObject [("key", OVString k); ("value", OVString v);
                ("revision", OVNumber r);
                ("children", OVArray (map convertSyncNode cs))]
  end.

(** [vm.ToValue(map[string]interface{}{})]. *)
Definition emptyObject : OttoValue := OVObject [].

(** What a builtin call does, in order. [EThrow] is
    [ThrowOttoException]: the script sees a catchable exception and the
    Go call unwinds, so the [return otto.NullValue()] written after each
    throw is never reached. [EPanic] is a Go runtime panic. *)
Inductive Effect :=
  | EThrow (msg : string)
  | EPanic (msg : string)
  | ESpawnFetch (path : string)
  | ESpawnWatch (path : string) (revision : Z)
  | EStartTimer (timeoutMsec : Z)
  | ESendStop
  | ECallInterrupt
  | EReturn (v : OttoValue).

(** The effects that reach the store or the network. *)
Definition is_io (e : Effect) : bool :=
  match e with
  | ESpawnFetch _ | ESpawnWatch _ _ => true
  | _ => false
  end.

(** [call.Argument(i)]: [undefined] past the end of the list. *)
Definition Argument (args : list OttoValue) (i : nat) : OttoValue :=
  nth i args OVUndefined.

(** Modelled from the spec: [VerifyCallArguments] is not in the sources;
    per the spec an arity mismatch is a caller-visible argument error
    raised before any I/O. [Some msg] is the exception it throws. *)
Definition VerifyCallArguments (args : list OttoValue) (name : string)
  (expected : nat) : option string :=
  if Nat.eqb (length args) expected then None
  else Some ("Unexpected number of arguments in " ++ name ++ " call").

(** Modelled from the spec: [GetString] is not in the sources; it accepts
    exactly the string values. [None] is its error. *)
Definition GetString (v : OttoValue) : option string :=
  match v with OVString s => Some s | _ => None end.

(** Modelled from the spec: [GetInt64] is not in the sources; it accepts
    exactly the integer values. [None] is its error. *)
Definition GetInt64 (v : OttoValue) : option Z :=
  match v with OVNumber n => Some n | _ => None end.

(** The branch taken by the [select] of [gohan_sync_watch]: the VM
    interrupt (with whether the interrupt callback unwinds the call), an
    event read from [eventChan], the timer, or an error read from
    [errorChan]. *)
Inductive WatchCase :=
  | CInterrupt (halts : bool)
  | CEvent (e : Event)
  | CTimeout
  | CError (msg : string).

(** The body of each [select] branch of [gohan_sync_watch]. The send
    [stopChan <- true] is on a fresh channel of capacity 1 and does not
    block (see [bridge_step] for the channel itself). *)
Definition watch_case_effects (c : WatchCase) : list Effect :=
  match c with
  | CInterrupt halts =>
      [ESendStop; ECallInterrupt] ++ (if halts then [] else [EReturn OVNull])
  | CEvent e => [EReturn (convertSyncEvent e)]
  | CTimeout => [ESendStop; EReturn emptyObject]
  | CError msg => [EThrow ("Sync watch ex failed: " ++ msg)]
  end.

(** [gohan_sync_watch], given the branch its [select] takes. *)
Definition gohan_sync_watch (args : list OttoValue) (c : WatchCase) : list Effect :=
  match VerifyCallArguments args "gohan_sync_watch" 3 with
  | Some msg => [EThrow msg]
  | None =>
      match GetString (Argument args 0) with
      | None => [EThrow "Invalid type of first argument: expected a string"]
      | Some path =>
          match GetInt64 (Argument args 1) with
          | None => [EThrow "Invalid type of first argument: expected an int64"]
          | Some timeoutMsec =>
              match GetInt64 (Argument args 2) with
              | None => [EThrow "Invalid type of first argument: expected an int64"]
              | Some revision =>
                  [ESpawnWatch path revision; EStartTimer timeoutMsec]
                    ++ watch_case_effects c
              end
          end
      end
  end.

(** What the variables [node] and [err] shared with the fetch goroutine
    hold when [gohan_sync_fetch] reads them: the goroutine's result, or
    still their initial values (nil node, nil error). *)
Inductive FetchVars :=
  | FVNode (n : Node)
  | FVErr (msg : string)
  | FVUnset.

(** The branch taken by the [select] of [gohan_sync_fetch]. *)
Inductive FetchCase :=
  | FInterrupt (halts : bool) (vars : FetchVars)
  | FDone (vars : FetchVars).

(** The code after the [select] of [gohan_sync_fetch]. *)
Definition fetch_result (vars : FetchVars) : list Effect :=
  match vars with
  | FVErr msg => [EThrow ("Failed to fetch sync: " ++ msg)]
  | FVNode n => [EReturn (convertSyncNode n)]
  | FVUnset => [EPanic "invalid memory address or nil pointer dereference"]
  end.

(** [gohan_sync_fetch], given the branch its [select] takes. *)
Definition gohan_sync_fetch (args : list OttoValue) (c : FetchCase) : list Effect :=
  match VerifyCallArguments args "gohan_sync_fetch" 1 with
  | Some msg => [EThrow msg]
  | None =>
      match GetString (Argument args 0) with
      | None => [EThrow "Invalid type of first argument: expected a string"]
      | Some path =>
          ESpawnFetch path ::
          match c with
          | FInterrupt halts vars =>
              ECallInterrupt :: (if halts then [] else fetch_result vars)
          | FDone vars => fetch_result vars
          end
      end
  end.

(** *** A [gohan_sync_watch] call as a concurrent system

    After validation the call owns three channels and one goroutine:
    [eventChan] (32 slots), [stopChan] (1 slot), [errorChan] (unbuffered)
    and the goroutine running [env.Sync.Watch] that, when [Watch] returns
    an error, sends it on [errorChan]. The bridge then blocks in its
    [select]. *)

(** A Go channel with a buffer of [cap] slots. *)
Record Chan (A : Type) := MkChan { cap : nat; buf : list A }.
Arguments MkChan {A} cap buf.
Arguments cap {A} c.
Arguments buf {A} c.

(** [ch <- x]: [None] when the buffer is full (the send blocks). *)
Definition chan_send {A} (c : Chan A) (x : A) : option (Chan A) :=
  if Nat.ltb (length (buf c)) (cap c) then Some (MkChan (cap c) (buf c ++ [x]))
  else None.

(** [<-ch]: [None] when the buffer is empty (the receive blocks). *)
Definition chan_recv {A} (c : Chan A) : option (A * Chan A) :=
  match buf c with
  | [] => None
  | x :: rest => Some (x, MkChan (cap c) rest)
  end.

(** The watch goroutine: [Watch] still running, with the mutations under
    the path that the store has yet to produce; blocked on the unbuffered
    [errorChan <- err] after [Watch] failed; or exited. *)
Inductive Worker :=
  | WWatch (pending : list Event)
  | WSendErr (msg : string)
  | WDone.

Inductive BridgePhase := BSelect | BReturned.

Record WatchState := {
  eventChan : Chan Event;
  stopChan : Chan bool;
  worker : Worker;
  watchRevision : Z;
  timerFired : bool;
  interruptPending : option bool;
  bridge : BridgePhase;
  log : list Effect
}.

(** The effects of the call up to its [select]. *)
Definition init_log (path : string) (timeoutMsec revision : Z) : list Effect :=
  [ESpawnWatch path revision; EStartTimer timeoutMsec].

(** The state when the bridge enters its [select]. *)
Definition watch_start (path : string) (timeoutMsec revision : Z)
  (pending : list Event) : WatchState :=
  {| eventChan := MkChan 32 [];
     stopChan := MkChan 1 [];
     worker := WWatch pending;
     watchRevision := revision;
     timerFired := false;
     interruptPending := None;
     bridge := BSelect;
     log := init_log path timeoutMsec revision |}.

(** The bridge leaves its [select] through branch [c]. *)
Definition bridge_finish (st : WatchState) (ev : Chan Event) (stop : Chan bool)
  (w : Worker) (c : WatchCase) : WatchState :=
  {| eventChan := ev;
     stopChan := stop;
     worker := w;
     watchRevision := watchRevision st;
     timerFired := timerFired st;
     interruptPending := interruptPending st;
     bridge := BReturned;
     log := log st ++ watch_case_effects c |}.

(** The four branches of the [select]. *)
Inductive SelectBranch := SelInterrupt | SelEvent | SelTimer | SelError.

(** A branch of the [select] fires when it is ready; [None] when it is
    not (or the bridge has already returned). A ready [errorChan]
    branch is the rendezvous with the goroutine blocked on its send. *)
Definition bridge_fire (b : SelectBranch) (st : WatchState) : option WatchState :=
  match bridge st with
  | BReturned => None
  | BSelect =>
      match b with
      | SelInterrupt =>
          match interruptPending st with
          | Some halts =>
              match chan_send (stopChan st) true with
              | Some stop' =>
                  Some (bridge_finish st (eventChan st) stop' (worker st) (CInterrupt halts))
              | None => None
              end
          | None => None
          end
      | SelEvent =>
          match chan_recv (eventChan st) with
          | Some (e, ev') => Some (bridge_finish st ev' (stopChan st) (worker st) (CEvent e))
          | None => None
          end
      | SelTimer =>
          if timerFired st then
            match chan_send (stopChan st) true with
            | Some stop' => Some (bridge_finish st (eventChan st) stop' (worker st) CTimeout)
            | None => None
            end
          else None
      | SelError =>
          match worker st with
          | WSendErr msg => Some (bridge_finish st (eventChan st) (stopChan st) WDone (CError msg))
          | _ => None
          end
      end
  end.

(** Modelled from the spec: [Sync.Watch] is not in the sources. It
    forwards each mutation under the path whose Revision is greater than
    the starting revision, in order, into the event sink; the hand-off is
    non-blocking, an event finding the buffer full being dropped. *)
Definition watch_forward (revision : Z) (c : Chan Event) (e : Event) : Chan Event :=
  if Z.ltb revision (Revision e) then
    match chan_send c e with
    | Some c' => c'
    | None => c
    end
  else c.

(** The goroutine's moves: [Watch] forwards the next mutation, observes
    the stop signal and returns nil (the goroutine exits), or fails
    (the goroutine then blocks on [errorChan <- err]). *)
Inductive WorkerMove := WForward | WObserveStop | WFail (msg : string).

Definition with_worker (st : WatchState) (ev : Chan Event) (stop : Chan bool)
  (w : Worker) : WatchState :=
  {| eventChan := ev;
     stopChan := stop;
     worker := w;
     watchRevision := watchRevision st;
     timerFired := timerFired st;
     interruptPending := interruptPending st;
     bridge := bridge st;
     log := log st |}.

Definition worker_move (m : WorkerMove) (st : WatchState) : option WatchState :=
  match worker st, m with
  | WWatch (e :: rest), WForward =>
      Some (with_worker st (watch_forward (watchRevision st) (eventChan st) e)
              (stopChan st) (WWatch rest))
  | WWatch _, WObserveStop =>
      match chan_recv (stopChan st) with
      | Some (_, stop') => Some (with_worker st (eventChan st) stop' WDone)
      | None => None
      end
  | WWatch _, WFail msg => Some (with_worker st (eventChan st) (stopChan st) (WSendErr msg))
  | _, _ => None
  end.

(** The environment: the timer fires, or the VM posts an interrupt. *)
Inductive EnvMove := ETimerFires | EInterruptArrives (halts : bool).

Definition with_env (st : WatchState) (fired : bool) (intr : option bool)
  : WatchState :=
  {| eventChan := eventChan st;
     stopChan := stopChan st;
     worker := worker st;
     watchRevision := watchRevision st;
     timerFired := fired;
     interruptPending := intr;
     bridge := bridge st;
     log := log st |}.

Definition env_move (m : EnvMove) (st : WatchState) : option WatchState :=
  match m with
  | ETimerFires => Some (with_env st true (interruptPending st))
  | EInterruptArrives halts =>
      match interruptPending st with
      | None => Some (with_env st (timerFired st) (Some halts))
      | Some _ => None
      end
  end.

Inductive Move :=
  | MBridge (b : SelectBranch)
  | MWorker (m : WorkerMove)
  | MEnv (m : EnvMove).

Definition move (m : Move) (st : WatchState) : option WatchState :=
  match m with
  | MBridge b => bridge_fire b st
  | MWorker w => worker_move w st
  | MEnv e => env_move e st
  end.

(** An interleaving of moves, run from a state. *)
Fixpoint run (ms : list Move) (st : WatchState) : option WatchState :=
  match ms with
  | [] => Some st
  | m :: rest =>
      match move m st with
      | Some st' => run rest st'
      | None => None
      end
  end.

Definition reachable (st0 st : WatchState) : Prop :=
  exists ms, run ms st0 = Some st.

(** Whether an effect is a thrown exception. *)
Definition is_throw (e : Effect) : bool :=
  match e with EThrow _ => true | _ => false end.

(** A mutation at ["/config"] with the given revision. *)
Definition rev_event (rev : Z) : Event :=
  {| Action := "set"; Key := "/config"; Data := OVNull; Revision := rev |}.

(** The coordination link fails, then the timer fires and the [select]
    takes the timer branch. *)
Definition leak_moves : list Move :=
  [MWorker (WFail "link down"); MEnv ETimerFires; MBridge SelTimer].

(** What holds of every state of a call started at [watch_start path
    timeoutMsec revision _]. *)
Definition watch_inv (path : string) (timeoutMsec revision : Z)
  (st : WatchState) : Prop :=
  watchRevision st = revision /\
  cap (eventChan st) = 32 /\
  length (buf (eventChan st)) <= 32 /\
  Forall (fun e => (revision < Revision e)%Z) (buf (eventChan st)) /\
  cap (stopChan st) = 1 /\
  (bridge st = BSelect ->
     log st = init_log path timeoutMsec revision /\ buf (stopChan st) = []) /\
  (bridge st = BReturned ->
     exists c, log st = (init_log path timeoutMsec revision ++ watch_case_effects c)%list /\
               (forall e, c = CEvent e -> (revision < Revision e)%Z)).

End SyncBridge.

(** ** The schema-to-template helpers of [cli/template.go] *)

Module Template.
Import Transaction.

(** A decoded JSON document as the code sees it behind [interface{}]:
    [JList] is [[]interface{}], [JStringList] is [[]string], [JMap] is
    [map[string]interface{}] and [JMapMap] is
    [map[string]map[string]interface{}]. Maps are association lists
    (a Go map has no repeated key). *)
Inductive JValue :=
  | JString (s : string)
  | JNumber (n : Z)
  | JBool (b : bool)
  | JNull
  | JList (xs : list JValue)
  | JStringList (xs : list string)
  | JMap (m : list (string * JValue))
  | JMapMap (mm : list (string * list (string * JValue))).

Abbreviation JObject := (list (string * JValue)).

(** [node[k]] with its [ok]. *)
Definition map_lookup (k : string) (m : JObject) : option JValue :=
  option_map snd (List.find (fun p => String.eqb p.1 k) m).

(** [delete(node, k)]. *)
Definition map_delete (k : string) (m : JObject) : JObject :=
  List.filter (fun p => negb (String.eqb p.1 k)) m.

Definition extendedProperties : list string :=
  ["unique"; "permission"; "relation"; "relation_property"; "view";
   "detail_view"; "propertiesOrder"; "on_delete_cascade"; "indexed";
   "relationColumn"].

(** [deleteGohanExtendedProperties]. *)
Definition deleteGohanExtendedProperties (node : JObject) : JObject :=
  fold_left (fun m k => map_delete k m) extendedProperties node.

Section Cleanup.

(** [util.MaybeStringList] and [util.ContainsString] are not in the
    sources; they are left abstract, so what follows holds for any
    implementation of them. *)
Variable MaybeStringList : JValue -> list string.
Variable ContainsString : list string -> string -> bool.

(** [fixEnumDefaultValue]. *)
Definition fixEnumDefaultValue (node : JObject) : JObject :=
  match map_lookup "default" node with
  | Some defaultValue =>
      match map_lookup "enum" node with
      | Some enums =>
          match defaultValue with
          | JString defaultValueStr =>
              if ContainsString (MaybeStringList enums) defaultValueStr then node
              else map_delete "default" node
          | _ => node
          end
      | None => node
      end
  | None => node
  end.

(** [removeEmptyRequiredList]: only an empty [[]string] or
    [[]interface{}] is removed. *)
Definition removeEmptyRequiredList (node : JObject) : JObject :=
  match map_lookup "required" node with
  | Some (JStringList []) => map_delete "required" node
  | Some (JList []) => map_delete "required" node
  | _ => node
  end.

Definition allowedFormats : list string :=
  ["uri"; "uuid"; "email"; "int32"; "int64"; "float"; "double"; "byte";
   "binary"; "date"; "date-time"; "password"].

(** [removeNotSupportedFormat]. *)
Definition removeNotSupportedFormat (node : JObject) : JObject :=
  match map_lookup "format" node with
  | Some (JString format) =>
      if ContainsString allowedFormats format then node
      else map_delete "format" node
  | _ => node
  end.

(** The four passes [fixPropertyTree] applies to a node before its
    children. *)
Definition fixNode (node : JObject) : JObject :=
  removeNotSupportedFormat (removeEmptyRequiredList
    (fixEnumDefaultValue (deleteGohanExtendedProperties node))).

Definition key_in (k : string) (m : JObject) : bool :=
  existsb (fun p => String.eqb p.1 k) m.

(** [fixPropertyTree], on the value of an entry: maps are fixed, a map
    of maps has each inner map fixed, anything else (lists included) is
    left alone. The passes only delete keys, so a node is fixed by
    keeping the entries whose key [fixNode] kept and fixing their
    values (the map is mutated in place in Go). *)
Fixpoint fixValue (v : JValue) : JValue :=
  let fix fixEntries (keep : string -> bool) (m : JObject) : JObject :=
    match m with
    | [] => []
    | (k, x) :: rest =>
        if keep k then (k, fixValue x) :: fixEntries keep rest
        else fixEntries keep rest
    end in
  let fix fixMapMap (mm : list (string * JObject)) : list (string * JObject) :=
    match mm with
    | [] => []
    | (k, m) :: rest =>
        (k, fixEntries (fun k' => key_in k' (fixNode m)) m) :: fixMapMap rest
    end in
  match v with
  | JMap m => JMap (fixEntries (fun k => key_in k (fixNode m)) m)
  | JMapMap mm => JMapMap (fixMapMap mm)
  | _ => v
  end.

(** [fixPropertyTree node]. *)
Definition fixPropertyTree (node : JObject) : JObject :=
  match fixValue (JMap node) with
  | JMap m => m
  | _ => node
  end.

(** When each of the three later passes deletes its key. *)
Definition dropsDefault (node : JObject) : bool :=
  match map_lookup "default" node, map_lookup "enum" node with
  | Some (JString d), Some enums => negb (ContainsString (MaybeStringList enums) d)
  | _, _ => false
  end.

Definition dropsRequired (node : JObject) : bool :=
  match map_lookup "required" node with
  | Some (JStringList []) | Some (JList []) => true
  | _ => false
  end.

Definition dropsFormat (node : JObject) : bool :=
  match map_lookup "format" node with
  | Some (JString format) => negb (ContainsString allowedFormats format)
  | _ => false
  end.

(** No key of [extendedProperties] in a map, nor in any map reached
    through map entries and maps of maps. *)
Fixpoint noExtendedValue (v : JValue) : bool :=
  let fix entries (m : JObject) : bool :=
    match m with
    | [] => true
    | (k, x) :: rest =>
        negb (bool_decide (k ∈ extendedProperties)) && noExtendedValue x && entries rest
    end in
  let fix mapmap (mm : list (string * JObject)) : bool :=
    match mm with
    | [] => true
    | (_, m) :: rest => entries m && mapmap rest
    end in
  match v with
  | JMap m => entries m
  | JMapMap mm => mapmap mm
  | _ => true
  end.

End Cleanup.

(** [toSwaggerPath]: [regexp.MustCompile(":([^/]+)").ReplaceAllString(i,
    "{$1}")]. Matches are found left to right; one starts at a [:]
    followed by a character other than [/], and [[^/]+] extends it
    greedily to the next [/] or the end. [inParam] is true inside a
    match being rewritten. *)
Fixpoint swaggerPathGo (inParam : bool) (s : string) : string :=
  match s with
  | EmptyString => if inParam then "}" else ""
  | String c rest =>
      if inParam then
        if Ascii.eqb c "/"%char then String "}"%char (String "/"%char (swaggerPathGo false rest))
        else String c (swaggerPathGo true rest)
      else if Ascii.eqb c ":"%char then
        match rest with
        | String c' rest' =>
            if Ascii.eqb c' "/"%char then String ":"%char (swaggerPathGo false rest)
            else String "{"%char (String c' (swaggerPathGo true rest'))
        | EmptyString => ":"
        end
      else String c (swaggerPathGo false rest)
  end.

Definition toSwaggerPath (i : string) : string := swaggerPathGo false i.

(** Whether [c] occurs in [s]. *)
Fixpoint has_char (c : ascii) (s : string) : bool :=
  match s with
  | EmptyString => false
  | String c' rest => Ascii.eqb c' c || has_char c rest
  end.

(** The parts of [schema.Action], [schema.Policy] and [schema.Schema]
    these helpers read. [Policy.Resource.Path.MatchString] is the
    policy's compiled path pattern, left abstract. *)
Record Action := { ActionID : string; Method : string }.

Record Policy := {
  Principal : string;
  PolicyAction : string;
  PathMatchString : string -> bool
}.

Record TSchema := {
  SchemaID : string;
  URL : string;
  Metadata : gmap string GoValue;
  Actions : list Action
}.

(** [metadata, _ := schema.Metadata["resource_group"].(string)]. *)
Definition resource_group (s : TSchema) : string :=
  match Metadata s !! "resource_group" with
  | Some (GoString g) => g
  | _ => ""
  end.

(** [getAllResourcesFromSchemas]: the keys of the set [resourcesSet]
    (Go leaves their order unspecified). *)
Definition getAllResourcesFromSchemas (schemasList : list (list TSchema))
  : list string :=
  elements (foldl (fun (acc : gset string) s => {[resource_group s]} ∪ acc) ∅
              (concat schemasList)).

(** [schema.Metadata["resource_group"] == resource]: an interface
    compared with a string is equal only when it holds that string. *)
Definition in_resource (resource : string) (s : TSchema) : bool :=
  match Metadata s !! "resource_group" with
  | Some (GoString g) => String.eqb g resource
  | _ => false
  end.

(** [filerSchemasByResource]. *)
Definition filerSchemasByResource (resource : string) (schemas : list TSchema)
  : list TSchema :=
  List.filter (fun s => in_resource resource s) schemas.

(** [saveAllResources]: per resource, the file written and the schemas
    given to the template. *)
Definition saveAllResources (schemas schemasCRUD : list TSchema)
  : list (string * list TSchema * list TSchema) :=
  map (fun resource =>
         (resource ++ ".json", filerSchemasByResource resource schemas,
          filerSchemasByResource resource schemasCRUD))
      (getAllResourcesFromSchemas [schemas; schemasCRUD]).

(** [filterPolicies]. *)
Definition filterPolicies (principal : string) (policies : list Policy) : list Policy :=
  List.filter (fun p => String.eqb (Principal p) principal) policies.

(** [getMatchingPolicy]. *)
Definition getMatchingPolicy (s : TSchema) (policies : list Policy) : option Policy :=
  List.find (fun p => PathMatchString p (URL s)) policies.

(** [hasMatchingPolicy]. *)
Definition hasMatchingPolicy (action : Action) (policies : list Policy) : bool :=
  existsb (fun p => String.eqb (ActionID action) (PolicyAction p)) policies.

(** [isMatchingPolicy]. *)
Definition isMatchingPolicy (action : Action) (policy : Policy) : bool :=
  String.eqb (ActionID action) (PolicyAction policy) ||
  String.eqb (PolicyAction policy) "*" ||
  (String.eqb (PolicyAction policy) "read" && String.eqb (Method action) "GET") ||
  (String.eqb (PolicyAction policy) "update" && String.eqb (Method action) "POST").

(** [canUseAction]. *)
Definition canUseAction (action : Action) (policies : list Policy) (url : string) : bool :=
  existsb (fun p => PathMatchString p url && isMatchingPolicy action p) policies.

(** [filterActions]. *)
Definition filterActions (schemaToFilter : TSchema) (nobodyPolicies policies : list Policy)
  : list Action :=
  List.filter (fun a => negb (hasMatchingPolicy a nobodyPolicies) &&
                   canUseAction a policies (URL schemaToFilter))
         (Actions schemaToFilter).

(** [schemaCopy := *schemaOriginal] with its [Actions] replaced. *)
Definition with_actions (s : TSchema) (actions : list Action) : TSchema :=
  {| SchemaID := SchemaID s; URL := URL s; Metadata := Metadata s;
     Actions := actions |}.

(** The loop of [filterSchemasForPolicy]. *)
Fixpoint splitSchemas (nobodyPolicies matchedPolicies : list Policy)
  (schemas : list TSchema) : list TSchema * list TSchema :=
  match schemas with
  | [] => ([], [])
  | schemaOriginal :: rest =>
      let '(r, c) := splitSchemas nobodyPolicies matchedPolicies rest in
      match getMatchingPolicy schemaOriginal matchedPolicies with
      | None => (r, c)
      | Some policy =>
          let schemaCopy := with_actions schemaOriginal
                              (filterActions schemaOriginal nobodyPolicies matchedPolicies) in
          if String.eqb (PolicyAction policy) "read" then (schemaCopy :: r, c)
          else (r, schemaCopy :: c)
      end
  end.

(** [filterSchemasForPolicy]. *)
Definition filterSchemasForPolicy (principal : string) (policies : list Policy)
  (schemas : list TSchema) : list TSchema * list TSchema :=
  let matchedPolicies := filterPolicies principal policies in
  let nobodyPolicies :=
    if String.eqb principal "Nobody" then [] else filterPolicies "Nobody" policies in
  splitSchemas nobodyPolicies matchedPolicies schemas.

End Template.

(** ** Module loading and the handler loop of [extension/otto/gohan_core.go] *)

Module GohanCore.
Import SyncBridge.

(** *** [require], [requireFromMotto] and [requireFromOtto] *)

(** What the three functions log. *)
Inductive RequireLog :=
  | LDebugMotto (moduleName : string)
  | LErrorMotto (moduleName err : string)
  | LErrorFallback (moduleName err : string)
  | LDebugOtto (moduleName : string).

Section Require.

(** The module registry of the otto extension and the two VM entry
    points, as Go [(value, error)] pairs; [None] is a [nil] error. *)
Variable RawModule : Type.
Variable RequireModule : string -> RawModule * option string.
Variable ToValue : RawModule -> OttoValue * option string.
Variable MottoRequire : string -> OttoValue * option string.

(** [requireFromOtto]. *)
Definition requireFromOtto (moduleName : string)
  : list RequireLog * (OttoValue * option string) :=
  let '(rawModule, errRequire) := RequireModule moduleName in
  match errRequire with
  | Some e => ([LDebugOtto moduleName], (OVUndefined, Some e))
  | None =>
      let '(module, errConvert) := ToValue rawModule in
      match errConvert with
      | Some e => ([LDebugOtto moduleName], (OVUndefined, Some e))
      | None => ([LDebugOtto moduleName], (module, None))
      end
  end.

(** [requireFromMotto]. *)
Definition requireFromMotto (moduleName : string)
  : list RequireLog * (OttoValue * option string) :=
  let '(v, err) := MottoRequire moduleName in
  match err with
  | Some e => ([LDebugMotto moduleName; LErrorMotto moduleName e], (v, err))
  | None => ([LDebugMotto moduleName], (v, err))
  end.

(** [require]. *)
Definition require (moduleName : string)
  : list RequireLog * (OttoValue * option string) :=
  let '(l1, (value, err)) := requireFromMotto moduleName in
  match err with
  | Some e =>
      let '(l2, r) := requireFromOtto moduleName in
      ((l1 ++ [LErrorFallback moduleName e] ++ l2)%list, r)
  | None => (l1, (value, err))
  end.

End Require.

Arguments requireFromOtto {RawModule}.
Arguments require {RawModule}.

(** *** [loadNPMModules] *)

(** The two fields of an [os.FileInfo] the loop reads. *)
Record FileInfo := { FName : string; FIsDir : bool }.

Section NPM.

(** [motto.FindFileModule(name, npmPath, nil)] for the configured
    [npmPath], and [os.Stat]: [None] is an error, [Some d] a file whose
    [IsDir()] is [d]. *)
Variable FindFileModule : string -> string * option string.
Variable StatIsDir : string -> option bool.

(** The inner loop over [entryPointCandidates]; [""] when none fits. *)
Definition entryPointOf (module : string) : string :=
  let fix pick (candidates : list string) : string :=
    match candidates with
    | [] => ""
    | candidate :: rest =>
        match StatIsDir candidate with
        | Some false => candidate
        | _ => pick rest
        end
    end in
  pick [module; module ++ ".js"; module ++ "/index.js"].

(** The loop of [loadNPMModules] over the entries of
    [node_modules] (the result of [ioutil.ReadDir], empty on error):
    the [motto.AddModule(name, loader of entry point)] calls it makes,
    in order. Both failures [break] out of the loop. *)
Fixpoint loadNPMModules (files : list FileInfo) : list (string * string) :=
  match files with
  | [] => []
  | f :: rest =>
      if FIsDir f && negb (String.prefix "." (FName f)) then
        let '(module, err) := FindFileModule (FName f) in
        match err with
        | Some _ => []
        | None =>
            let entryPoint := entryPointOf module in
            if String.eqb entryPoint "" then []
            else (FName f, entryPoint) :: loadNPMModules rest
        end
      else loadNPMModules rest
  end.

End NPM.

(** *** The built-in exceptions and [gohan_handle_event] *)

(** JavaScript [ToString] of a value, as [String.prototype.concat]
    applies it: array elements are joined with [","], [null] and
    [undefined] elements giving [""]. *)
Fixpoint js_to_string (v : OttoValue) : string :=
  match v with
  | OVUndefined => "undefined"
  | OVNull => "null"
  | OVBool true => "true"
  | OVBool false => "false"
  | OVNumber n => pretty n
  | OVString s => s
  | OVArray xs =>
      let fix join (ys : list OttoValue) : string :=
        match ys with
        | [] => ""
        | [y] => match y with OVUndefined | OVNull => "" | _ => js_to_string y end
        | y :: rest =>
            match y with OVUndefined | OVNull => "" | _ => js_to_string y end
            ++ "," ++ join rest
        end in
      join xs
  | OVObject _ => "[object Object]"
  end.

(** An object built by [BaseException] or by one of the constructors
    whose prototype derives from it: its [name], its [message] and the
    fields pushed onto [this.fields] after ["name"] and ["message"],
    with their values. *)
Record Exception := {
  exc_name : string;
  exc_message : OttoValue;
  exc_extra : list (string * OttoValue)
}.

Definition BaseException : Exception :=
  {| exc_name := "BaseException"; exc_message := OVString ""; exc_extra := [] |}.

Definition CustomException (msg code : OttoValue) : Exception :=
  {| exc_name := "CustomException"; exc_message := msg;
     exc_extra := [("code", code)] |}.

Definition ResourceException (msg problem : OttoValue) : Exception :=
  {| exc_name := "ResourceException"; exc_message := msg;
     exc_extra := [("problem", problem)] |}.

Definition ExtensionException (msg inner_exception : OttoValue) : Exception :=
  {| exc_name := "ExtensionException"; exc_message := msg;
     exc_extra := [("inner_exception", inner_exception)] |}.

(** [toDict]: one entry per element of [this.fields], in order. *)
Definition toDict (e : Exception) : OttoValue :=
  OVObject ([("name", OVString (exc_name e)); ("message", exc_message e)]
            ++ exc_extra e)%list.

(** [toString]. *)
Definition toString (e : Exception) : string :=
  exc_name e ++ "(" ++ js_to_string (exc_message e) ++ ")".

(** A thrown value: an instance of [BaseException] or anything else. *)
Inductive Thrown :=
  | ThrownException (e : Exception)
  | ThrownOther (v : OttoValue).

(** The [context] object, field by field; an absent field reads as
    [undefined], and assigning a new field appends it. *)
Abbreviation Context := (list (string * OttoValue)).

Definition ctx_get (k : string) (ctx : Context) : OttoValue :=
  match List.find (fun p => String.eqb p.1 k) ctx with
  | Some (_, v) => v
  | None => OVUndefined
  end.

Fixpoint ctx_set (k : string) (v : OttoValue) (ctx : Context) : Context :=
  match ctx with
  | [] => [(k, v)]
  | (k', v') :: rest =>
      if String.eqb k' k then (k, v) :: rest else (k', v') :: ctx_set k v rest
  end.

Definition isUndefined (v : OttoValue) : bool :=
  match v with OVUndefined => true | _ => false end.

(** A registered handler: the context it leaves (objects are mutated in
    place, also when it throws) and what it throws, if anything. *)
Abbreviation Handler := (Context -> Context * option Thrown).

(** [gohan_log_module_push(event_type)] and
    [gohan_log_module_restore(old_module)]. *)
Inductive LogModuleOp := LogPush (event_type : string) | LogRestore.

(** The [for] loop of [gohan_handle_event] over the handlers registered
    for [event_type]: the log-module calls, the context left, and the
    value that escapes the loop, if any. *)
Fixpoint handle_loop (event_type : string) (handlers : list Handler) (context : Context)
  : list LogModuleOp * Context * option OttoValue :=
  match handlers with
  | [] => ([], context, None)
  | handler :: rest =>
      let '(context1, thrown) := handler context in
      let thrown1 :=
        match thrown with
        | Some t => Some t
        | None =>
            if isUndefined (ctx_get "response_code" context1) then None
            else Some (ThrownException
                         (CustomException (ctx_get "response" context1)
                                          (ctx_get "response_code" context1)))
        end in
      match thrown1 with
      | None =>
          let '(l, c, r) := handle_loop event_type rest context1 in
          (LogPush event_type :: LogRestore :: l, c, r)
      | Some (ThrownException e) =>
          let context2 :=
            ctx_set "exception_message" (OVString (event_type ++ ": " ++ toString e))
              (ctx_set "exception" (toDict e) context1) in
          let '(l, c, r) := handle_loop event_type rest context2 in
          (LogPush event_type :: LogRestore :: l, c, r)
      | Some (ThrownOther v) =>
          ([LogPush event_type; LogRestore], context1, Some v)
      end
  end.

(** [gohan_handler]: the handlers of each event type, in registration
    order (event types that are not [Object.prototype] property names). *)
Abbreviation HandlerRegistry := (list (string * list Handler)).

Definition registered (event_type : string) (reg : HandlerRegistry) : option (list Handler) :=
  option_map snd (List.find (fun p => String.eqb p.1 event_type) reg).

(** [gohan_register_handler]. *)
Fixpoint gohan_register_handler (event_type : string) (func : Handler)
  (reg : HandlerRegistry) : HandlerRegistry :=
  match reg with
  | [] => [(event_type, [func])]
  | (k, hs) :: rest =>
      if String.eqb k event_type then (k, (hs ++ [func])%list) :: rest
      else (k, hs) :: gohan_register_handler event_type func rest
  end.

(** [gohan_handle_event], for handlers that do not register further
    handlers while they run. *)
Definition gohan_handle_event (reg : HandlerRegistry) (event_type : string)
  (context : Context) : list LogModuleOp * Context * option OttoValue :=
  match registered event_type reg with
  | None => ([], context, None)
  | Some handlers => handle_loop event_type handlers context
  end.

End GohanCore.

(** ** Reading back the values the sync bridge hands to scripts *)

Module SyncDecode.
Import SyncBridge.

(** A script-side reader of the objects built by [convertSyncNode]. *)
Fixpoint parseSyncNode (v : OttoValue) : option Node :=
  let fix parseChildren (cs : list OttoValue) : option (list Node) :=
    match cs with
    | [] => Some []
    | c :: rest =>
        match parseSyncNode c, parseChildren rest with
        | Some n, Some ns => Some (n :: ns)
        | _, _ => None
        end
    end in
  match v with
  | OVObject [(k1, OVString key); (k2, OVString value); (k3, OVNumber revision);
              (k4, OVArray children)] =>
      if String.eqb k1 "key" && String.eqb k2 "value" && String.eqb k3 "revision"
         && String.eqb k4 "children" then
        match parseChildren children with
        | Some ns => Some (MkNode key value revision ns)
        | None => None
        end
      else None
  | _ => None
  end.

(** The same for the objects built by [convertSyncEvent]. *)
Definition parseSyncEvent (v : OttoValue) : option Event :=
  match v with
  | OVObject [(k1, OVString action); (k2, OVString key); (k3, data);
              (k4, OVNumber revision)] =>
      if String.eqb k1 "action" && String.eqb k2 "key" && String.eqb k3 "data"
         && String.eqb k4 "revision" then
        Some {| Action := action; Key := key; Data := data; Revision := revision |}
      else None
  | _ => None
  end.

End SyncDecode.

(** ** Properties of the transaction contract *)

Module TransactionFacts.
Import Transaction.

Example GetIsolationLevel_read_default :
  GetIsolationLevel {| IsolationLevel := ∅ |} "read" = Returns RepeatableRead.
Proof. reflexivity. Qed.

Example GetIsolationLevel_create_default :
  GetIsolationLevel {| IsolationLevel := ∅ |} "create" = Returns Serializable.
Proof. reflexivity. Qed.

(** C3 (counterexample): an override whose dynamic type is not [Type]
    is not returned: the assertion [level.(Type)] panics. Here the
    schema declares ["create" := "SERIALIZABLE"] as a plain string. *)
Lemma GetIsolationLevel_string_override_panics :
  IsolationLevel string_override_schema !! "create" = Some (GoString "SERIALIZABLE") /\
  (forall t, GetIsolationLevel string_override_schema "create" <> Returns t) /\
  GetIsolationLevel string_override_schema "create"
    = Panics "interface conversion: interface {} is not transaction.Type".
Proof.
  split; [reflexivity|]. split; [|reflexivity].
  intros t H. discriminate H.
Qed.

(** C3 (amended): an override whose dynamic type is [Type] is returned
    verbatim; an override of any other dynamic type makes
    [GetIsolationLevel] panic; without an override, ["read"] gives
    [RepeatableRead] and every other action gives [Serializable]. *)
Theorem GetIsolationLevel_spec (s : Schema) (a : string) :
  (forall t, IsolationLevel s !! a = Some (GoType t) ->
             GetIsolationLevel s a = Returns t) /\
  (forall v, IsolationLevel s !! a = Some v -> (forall t, v <> GoType t) ->
             exists msg, GetIsolationLevel s a = Panics msg) /\
  (IsolationLevel s !! a = None -> a = "read" ->
             GetIsolationLevel s a = Returns RepeatableRead) /\
  (IsolationLevel s !! a = None -> a <> "read" ->
             GetIsolationLevel s a = Returns Serializable).
Proof.
  unfold GetIsolationLevel. repeat split.
  - intros t H. rewrite H. reflexivity.
  - intros v H Hv. rewrite H. destruct v; simpl; eauto.
    exfalso. eapply Hv. reflexivity.
  - intros H ->. rewrite H. reflexivity.
  - intros H Ha. rewrite H. apply String.eqb_neq in Ha. rewrite Ha. reflexivity.
Qed.

Lemma GetIsolationLevel_spec_witness :
  GetIsolationLevel string_override_schema "read" = Returns ReadCommited /\
  GetIsolationLevel string_override_schema "delete" = Returns Serializable.
Proof.
  split.
  - apply (proj1 (GetIsolationLevel_spec string_override_schema "read")).
    reflexivity.
  - apply (proj2 (proj2 (proj2 (GetIsolationLevel_spec string_override_schema "delete")))).
    + reflexivity.
    + discriminate.
Defined.

(** C9: [IDFilter v] is the single-entry map [{"id": v}]: its only
    binding is ["id"] to [v]. *)
Theorem IDFilter_single_entry (v : GoValue) :
  map_to_list (IDFilter v) = [("id", v)] /\
  IDFilter v !! "id" = Some v /\
  (forall k, k <> "id" -> IDFilter v !! k = None).
Proof.
  unfold IDFilter. split; [apply map_to_list_singleton|]. split.
  - by simplify_map_eq.
  - intros k Hk. rewrite lookup_singleton. case_decide; congruence.
Qed.

Lemma IDFilter_single_entry_witness :
  IDFilter (GoInt 7) !! "name" = None.
Proof.
  apply (proj2 (proj2 (IDFilter_single_entry (GoInt 7)))). discriminate.
Defined.

(** C10: the string values of the four isolation [Type] constants; the
    [Serializable] constant is the mixed-case ["Serializable"], unlike
    the uppercase SQL form of the other three. *)
Theorem isolation_type_literals :
  iso_str ReadUncommited = "READ UNCOMMITTED" /\
  iso_str ReadCommited = "READ COMMITTED" /\
  iso_str RepeatableRead = "REPEATABLE READ" /\
  iso_str Serializable = "Serializable" /\
  iso_str Serializable <> "SERIALIZABLE".
Proof. repeat split. discriminate. Qed.

End TransactionFacts.

(** ** Properties of the transaction lifecycle *)

Module TxLifecycleFacts.
Import TxLifecycle.
Local Close Scope string_scope.

Section Facts.
Variable backend : list TxOp -> TxPhase -> TxOp -> option TxError.

Lemma tx_step_close hist p : tx_step backend hist p OpClose = (Closed, None).
Proof. destruct p; reflexivity. Qed.

Lemma tx_run_closed hist ops :
  tx_run backend hist Closed ops =
  (Closed, map (fun op => match op with
                          | OpClose => None
                          | _ => Some TransactionClosed
                          end) ops).
Proof.
  revert hist. induction ops as [|op ops IH]; intros hist; [reflexivity|].
  destruct op; simpl; rewrite IH; reflexivity.
Qed.

Lemma tx_run_app hist p ops1 ops2 :
  tx_run backend hist p (ops1 ++ ops2) =
  (fst (tx_run backend (hist ++ ops1) (fst (tx_run backend hist p ops1)) ops2),
   snd (tx_run backend hist p ops1) ++
   snd (tx_run backend (hist ++ ops1) (fst (tx_run backend hist p ops1)) ops2)).
Proof.
  revert hist p. induction ops1 as [|op ops1 IH]; intros hist p.
  - simpl. rewrite app_nil_r. destruct (tx_run backend hist p ops2); reflexivity.
  - simpl. destruct (tx_step backend hist p op) as [p' r].
    rewrite IH. rewrite <- app_assoc. simpl.
    destruct (tx_run backend (hist ++ [op]) p' ops1) as [p1 r1]. simpl.
    destruct (tx_run backend (hist ++ op :: ops1) p1 ops2). reflexivity.
Qed.

End Facts.

(** C8: whatever ran before (committed or not), once [Close] has run the
    handle reports [Closed() = true]; a further [Close] succeeds and
    leaves it closed; every other operation, [Commit] included, fails
    with [TransactionClosed]. *)
Theorem tx_after_close_fails
  (backend : list TxOp -> TxPhase -> TxOp -> option TxError)
  (p0 : TxPhase) (prior after : list TxOp) :
  tx_Closed (fst (tx_run backend [] p0 (prior ++ [OpClose]))) = true /\
  tx_Closed (fst (tx_run backend [] p0 (prior ++ [OpClose] ++ after))) = true /\
  snd (tx_run backend [] p0 (prior ++ [OpClose] ++ after)) =
    snd (tx_run backend [] p0 prior) ++ [None] ++
    map (fun op => match op with
                   | OpClose => None
                   | _ => Some TransactionClosed
                   end) after.
Proof.
  rewrite !tx_run_app. simpl. rewrite tx_step_close. simpl.
  rewrite tx_run_closed. simpl. repeat split.
Qed.

End TxLifecycleFacts.

(** ** Properties of the watch bridge *)

Module SyncBridgeFacts.
Import SyncBridge.

Lemma chan_send_some {A} (c c' : Chan A) x :
  chan_send c x = Some c' ->
  length (buf c) < cap c /\ c' = MkChan (cap c) (buf c ++ [x]).
Proof.
  unfold chan_send. destruct (Nat.ltb_spec (length (buf c)) (cap c)) as [Hlt|Hge];
    intros Hs; inversion Hs; auto.
Qed.

Lemma chan_send_empty {A} (c : Chan A) x :
  cap c = 1 -> buf c = [] -> chan_send c x = Some (MkChan 1 [x]).
Proof. intros Hc Hb. unfold chan_send. rewrite Hc, Hb. reflexivity. Qed.

Lemma chan_recv_some {A} (c c' : Chan A) x :
  chan_recv c = Some (x, c') -> buf c = x :: buf c' /\ cap c' = cap c.
Proof.
  unfold chan_recv. destruct (buf c) as [|y ys]; intros Hr; inversion Hr; auto.
Qed.

Lemma watch_forward_inv r c e :
  cap c = 32 -> length (buf c) <= 32 ->
  Forall (fun x => (r < Revision x)%Z) (buf c) ->
  cap (watch_forward r c e) = 32 /\
  length (buf (watch_forward r c e)) <= 32 /\
  Forall (fun x => (r < Revision x)%Z) (buf (watch_forward r c e)).
Proof.
  intros Hc Hl Hf. unfold watch_forward, chan_send.
  destruct (Z.ltb_spec r (Revision e)); [|auto].
  destruct (Nat.ltb_spec (length (buf c)) (cap c)); simpl; [|auto].
  rewrite length_app. simpl. split; [auto|split; [lia|]].
  apply Forall_app. auto.
Qed.

Lemma watch_inv_start path t r pending :
  watch_inv path t r (watch_start path t r pending).
Proof.
  unfold watch_inv, watch_start. simpl.
  repeat split; try lia; try constructor; discriminate.
Qed.

Lemma watch_inv_move path t r m st st' :
  watch_inv path t r st -> move m st = Some st' -> watch_inv path t r st'.
Proof.
  destruct st as [ev stop w rev fired intr br lg].
  unfold watch_inv; simpl.
  intros (Hrev & Hcap & Hlen & Hall & Hscap & Hsel & Hret) Hm.
  destruct m as [b|wm|em]; simpl in Hm.
  - unfold bridge_fire in Hm; simpl in Hm. destruct br; [|discriminate].
    destruct (Hsel eq_refl) as [Hlog Hstop]. subst lg.
    destruct b.
    + destruct intr as [h|]; [|discriminate].
      destruct (chan_send stop true) as [stop'|] eqn:Hs; [|discriminate].
      apply chan_send_some in Hs as [_ ->]. injection Hm as <-.
      unfold bridge_finish; simpl.
      repeat split; auto; try discriminate.
      intros _. exists (CInterrupt h). split; [reflexivity|discriminate].
    + destruct (chan_recv ev) as [[e ev']|] eqn:Hr; [|discriminate].
      apply chan_recv_some in Hr as [Hb Hc']. injection Hm as <-.
      unfold bridge_finish; simpl. rewrite Hb in Hlen, Hall.
      inversion Hall as [|? ? He Hall']; subst.
      simpl in Hlen. repeat split; auto; try lia; try discriminate.
      intros _. exists (CEvent e). split; [reflexivity|].
      intros e' Heq. injection Heq as <-. exact He.
    + destruct fired; [|discriminate].
      destruct (chan_send stop true) as [stop'|] eqn:Hs; [|discriminate].
      apply chan_send_some in Hs as [_ ->]. injection Hm as <-.
      unfold bridge_finish; simpl.
      repeat split; auto; try discriminate.
      intros _. exists CTimeout. split; [reflexivity|discriminate].
    + destruct w as [|msg|]; try discriminate. injection Hm as <-.
      unfold bridge_finish; simpl.
      repeat split; auto; try discriminate.
      intros _. exists (CError msg). split; [reflexivity|discriminate].
  - unfold worker_move in Hm; simpl in Hm.
    destruct w as [[|e rest]|msg|]; destruct wm; try discriminate.
    + destruct (chan_recv stop) as [[x stop']|] eqn:Hr; [|discriminate].
      apply chan_recv_some in Hr as [Hb Hc']. injection Hm as <-.
      unfold with_worker; simpl.
      assert (Hns : br <> BSelect)
        by (intros Hbr; destruct (Hsel Hbr) as [_ Hs]; congruence).
      repeat split; auto; try congruence; intros Hbr; contradiction.
    + injection Hm as <-. unfold with_worker; simpl. auto 10.
    + injection Hm as <-. unfold with_worker; simpl. subst rev.
      destruct (watch_forward_inv r ev e Hcap Hlen Hall) as (? & ? & ?).
      auto 10.
    + destruct (chan_recv stop) as [[x stop']|] eqn:Hr; [|discriminate].
      apply chan_recv_some in Hr as [Hb Hc']. injection Hm as <-.
      unfold with_worker; simpl.
      assert (Hns : br <> BSelect)
        by (intros Hbr; destruct (Hsel Hbr) as [_ Hs]; congruence).
      repeat split; auto; try congruence; intros Hbr; contradiction.
    + injection Hm as <-. unfold with_worker; simpl. auto 10.
  - destruct em; [injection Hm as <-|destruct intr; [discriminate|injection Hm as <-]];
      unfold with_env; simpl; auto 10.
Qed.

Lemma watch_inv_run path t r ms st st' :
  watch_inv path t r st -> run ms st = Some st' -> watch_inv path t r st'.
Proof.
  revert st. induction ms as [|m ms IH]; intros st Hinv Hrun; simpl in Hrun.
  - injection Hrun as <-. exact Hinv.
  - destruct (move m st) as [st1|] eqn:Hm; [|discriminate].
    eapply IH; [|exact Hrun]. eapply watch_inv_move; eauto.
Qed.

Lemma watch_inv_reachable path t r pending st :
  reachable (watch_start path t r pending) st -> watch_inv path t r st.
Proof.
  intros [ms Hrun]. eapply watch_inv_run; [apply watch_inv_start|exact Hrun].
Qed.

Local Close Scope string_scope.

Lemma select_state path t r pending st :
  reachable (watch_start path t r pending) st -> bridge st = BSelect ->
  log st = init_log path t r /\ buf (stopChan st) = [] /\ cap (stopChan st) = 1.
Proof.
  intros Hreach Hb.
  destruct (watch_inv_reachable _ _ _ _ _ Hreach) as (_ & _ & _ & _ & Hc & Hsel & _).
  destruct (Hsel Hb). auto.
Qed.

(** C1 (counterexample): when the VM interrupt wins the [select], the
    call does not return the empty object: it sends the stop signal,
    calls the interrupt callback, then returns [null] if the callback
    returns, and nothing if it unwinds the call. *)
Lemma watch_interrupt_not_empty_object :
  gohan_sync_watch [OVString "/config"; OVNumber 10; OVNumber 0] (CInterrupt false)
    = [ESpawnWatch "/config" 0; EStartTimer 10; ESendStop; ECallInterrupt;
       EReturn OVNull] /\
  ~ In (EReturn emptyObject)
       (gohan_sync_watch [OVString "/config"; OVNumber 10; OVNumber 0] (CInterrupt false)) /\
  ~ In (EReturn emptyObject)
       (gohan_sync_watch [OVString "/config"; OVNumber 10; OVNumber 0] (CInterrupt true)).
Proof. split; [reflexivity|]. simpl. intuition discriminate. Qed.

(** C1 (amended): when the timer wins, the bridge sends the stop signal
    (the send on [stopChan] never blocks) and then returns the empty
    object; when the VM interrupt wins, it sends the stop signal, then
    calls the interrupt callback, then returns [null] (or nothing, if
    the callback unwinds the call). In both cases the stop signal is
    sent before the call ends. *)
Theorem watch_timeout_interrupt_stop_first path t r pending st :
  reachable (watch_start path t r pending) st -> bridge st = BSelect ->
  (timerFired st = true ->
     exists st', bridge_fire SelTimer st = Some st' /\
       buf (stopChan st') = [true] /\
       log st' = log st ++ [ESendStop; EReturn emptyObject]) /\
  (forall halts, interruptPending st = Some halts ->
     exists st', bridge_fire SelInterrupt st = Some st' /\
       buf (stopChan st') = [true] /\
       log st' = log st ++ [ESendStop; ECallInterrupt] ++
                 (if halts then [] else [EReturn OVNull])).
Proof.
  intros Hreach Hb. destruct (select_state _ _ _ _ _ Hreach Hb) as (_ & Hs & Hc).
  unfold bridge_fire. rewrite Hb. split.
  - intros Ht. rewrite Ht, (chan_send_empty _ _ Hc Hs).
    eexists. split; [reflexivity|]. split; reflexivity.
  - intros halts Hi. rewrite Hi, (chan_send_empty _ _ Hc Hs).
    eexists. split; [reflexivity|]. split; [reflexivity|].
    reflexivity.
Qed.

Lemma watch_timeout_interrupt_stop_first_witness :
  exists st', bridge_fire SelTimer
                (with_env (watch_start "/config" 10 0 []) true (Some false)) = Some st' /\
    buf (stopChan st') = [true] /\
    log st' = log (with_env (watch_start "/config" 10 0 []) true (Some false)) ++
              [ESendStop; EReturn emptyObject].
Proof.
  apply (watch_timeout_interrupt_stop_first "/config" 10 0 []
           (with_env (watch_start "/config" 10 0 []) true (Some false))).
  - exists [MEnv ETimerFires; MEnv (EInterruptArrives false)]. reflexivity.
  - reflexivity.
  - reflexivity.
Defined.

Lemma run_app ms1 ms2 st :
  run (ms1 ++ ms2) st =
  match run ms1 st with Some st1 => run ms2 st1 | None => None end.
Proof.
  revert st. induction ms1 as [|m ms1 IH]; intros st; simpl; [reflexivity|].
  destruct (move m st); [apply IH|reflexivity].
Qed.

Lemma reachable_run st0 st ms st' :
  reachable st0 st -> run ms st = Some st' -> reachable st0 st'.
Proof.
  intros [ms0 H0] H. exists (ms0 ++ ms). rewrite run_app, H0. exact H.
Qed.

Lemma watch_log_shape path t r pending st :
  reachable (watch_start path t r pending) st ->
  log st = init_log path t r \/
  exists c, log st = init_log path t r ++ watch_case_effects c.
Proof.
  intros Hreach.
  destruct (watch_inv_reachable _ _ _ _ _ Hreach) as (_ & _ & _ & _ & _ & Hsel & Hret).
  destruct (bridge st).
  - left. apply (Hsel eq_refl).
  - right. destruct (Hret eq_refl) as (c & Hl & _). eauto.
Qed.

(** C2: no event with a Revision at or below the starting revision is
    ever buffered in [eventChan] nor returned to the script; with
    mutations at revisions 3, 6, 7, 9 and starting revision 5, the
    subscription delivers exactly the events at 6, 7, 9 in that order,
    and the call returns the one at 6. *)
Theorem watch_never_delivers_old_revisions :
  (forall path t r pending st,
     reachable (watch_start path t r pending) st ->
     Forall (fun e => (r < Revision e)%Z) (buf (eventChan st)) /\
     (forall e, In (EReturn (convertSyncEvent e)) (log st) -> (r < Revision e)%Z)) /\
  (exists st,
     run [MWorker WForward; MWorker WForward; MWorker WForward; MWorker WForward]
       (watch_start "/config" 10 5 (map rev_event [3; 6; 7; 9]%Z)) = Some st /\
     map Revision (buf (eventChan st)) = [6; 7; 9]%Z /\
     exists st', bridge_fire SelEvent st = Some st' /\
       log st' = log st ++ [EReturn (convertSyncEvent (rev_event 6))]).
Proof.
  split.
  - intros path t r pending st Hreach.
    destruct (watch_inv_reachable _ _ _ _ _ Hreach)
      as (_ & _ & _ & Hall & _ & Hsel & Hret).
    split; [exact Hall|]. intros e Hin.
    destruct (bridge st).
    + destruct (Hsel eq_refl) as [Hl _]. rewrite Hl in Hin.
      simpl in Hin. intuition discriminate.
    + destruct (Hret eq_refl) as (c & Hl & Hc). rewrite Hl in Hin.
      apply in_app_or in Hin as [Hin|Hin]; [simpl in Hin; intuition discriminate|].
      destruct c as [h|e'| |m]; simpl in Hin.
      * destruct h; simpl in Hin; intuition discriminate.
      * destruct Hin as [Heq|[]]. unfold convertSyncEvent in Heq.
        assert (Revision e' = Revision e) as <- by congruence.
        apply Hc. reflexivity.
      * intuition discriminate.
      * intuition discriminate.
  - eexists. split; [reflexivity|]. split; [reflexivity|].
    eexists. split; reflexivity.
Qed.

(** C4: a call reads at most one event: reading takes the head of the
    buffer and leaves the rest in it, and once the call has returned its
    [select] never fires again; [eventChan] has 32 slots and never holds
    more; the event source's hand-off is always possible, and an event
    offered to a full buffer is dropped. *)
Theorem watch_one_event_per_call_bounded path t r pending st :
  reachable (watch_start path t r pending) st ->
  cap (eventChan st) = 32 /\
  length (buf (eventChan st)) <= 32 /\
  (log st = init_log path t r \/
   exists c, log st = init_log path t r ++ watch_case_effects c) /\
  (forall st', bridge_fire SelEvent st = Some st' ->
     exists e, buf (eventChan st) = e :: buf (eventChan st') /\
       log st' = log st ++ [EReturn (convertSyncEvent e)] /\
       bridge st' = BReturned) /\
  (bridge st = BReturned -> forall b, bridge_fire b st = None) /\
  (forall e rest, worker st = WWatch (e :: rest) ->
     exists st', worker_move WForward st = Some st' /\
       (length (buf (eventChan st)) = 32 -> eventChan st' = eventChan st)).
Proof.
  intros Hreach.
  destruct (watch_inv_reachable _ _ _ _ _ Hreach) as (_ & Hcap & Hlen & _).
  split; [exact Hcap|]. split; [exact Hlen|].
  split; [eapply watch_log_shape; eauto|]. split; [|split].
  - intros st' Hf. unfold bridge_fire in Hf.
    destruct (bridge st); [|discriminate].
    destruct (chan_recv (eventChan st)) as [[e ev']|] eqn:Hr; [|discriminate].
    apply chan_recv_some in Hr as [Hb _]. injection Hf as <-.
    exists e. auto.
  - intros Hb b. unfold bridge_fire. rewrite Hb. reflexivity.
  - intros e rest Hw. unfold worker_move. rewrite Hw.
    eexists. split; [reflexivity|]. intros Hl. simpl.
    unfold watch_forward, chan_send. rewrite Hl, Hcap.
    destruct (Z.ltb _ _); reflexivity.
Qed.

Lemma watch_one_event_per_call_bounded_witness :
  cap (eventChan (watch_start "/config" 10 0 [rev_event 1])) = 32.
Proof.
  apply (watch_one_event_per_call_bounded "/config" 10 0 [rev_event 1]
           (watch_start "/config" 10 0 [rev_event 1])).
  exists []. reflexivity.
Defined.

Lemma move_after_watch_returned m st st' :
  (forall p, worker st <> WWatch p) -> move m st = Some st' ->
  (forall p, worker st' <> WWatch p) /\
  length (buf (eventChan st')) <= length (buf (eventChan st)).
Proof.
  intros Hw Hm. destruct m as [b|wm|em]; simpl in Hm.
  - unfold bridge_fire in Hm. destruct (bridge st); [|discriminate].
    destruct b.
    + destruct (interruptPending st); [|discriminate].
      destruct (chan_send (stopChan st) true); [|discriminate].
      injection Hm as <-. simpl. auto.
    + destruct (chan_recv (eventChan st)) as [[e ev']|] eqn:Hr; [|discriminate].
      apply chan_recv_some in Hr as [Hb _]. injection Hm as <-. simpl.
      rewrite Hb. simpl. split; [auto|lia].
    + destruct (timerFired st); [|discriminate].
      destruct (chan_send (stopChan st) true); [|discriminate].
      injection Hm as <-. simpl. auto.
    + destruct (worker st); try discriminate.
      injection Hm as <-. simpl. split; [discriminate|lia].
  - unfold worker_move in Hm. destruct (worker st) as [p| |] eqn:Hws.
    + exfalso. exact (Hw p eq_refl).
    + destruct wm; discriminate.
    + destruct wm; discriminate.
  - unfold env_move in Hm. destruct em.
    + injection Hm as <-. simpl. auto.
    + destruct (interruptPending st); [discriminate|].
      injection Hm as <-. simpl. auto.
Qed.

Lemma run_after_watch_returned ms st st' :
  (forall p, worker st <> WWatch p) -> run ms st = Some st' ->
  (forall p, worker st' <> WWatch p) /\
  length (buf (eventChan st')) <= length (buf (eventChan st)).
Proof.
  revert st. induction ms as [|m ms IH]; intros st Hw Hrun; simpl in Hrun.
  - injection Hrun as <-. auto.
  - destruct (move m st) as [st1|] eqn:Hm; [|discriminate].
    destruct (move_after_watch_returned _ _ _ Hw Hm) as [Hw1 Hl1].
    destruct (IH st1 Hw1 Hrun) as [Hw2 Hl2]. split; [exact Hw2|lia].
Qed.

Lemma throws_at_most_one path t r pending st :
  reachable (watch_start path t r pending) st ->
  length (filter is_throw (log st)) <= 1.
Proof.
  intros Hreach.
  destruct (watch_log_shape _ _ _ _ _ Hreach) as [Hl|[c Hl]]; rewrite Hl;
    [simpl; lia|].
  rewrite filter_app, length_app.
  destruct c as [[|]| | |]; simpl; lia.
Qed.

(** C5: when [Watch] has failed and the call is still in its [select],
    the failure is surfaced as one thrown exception; a call never
    surfaces more than one exception, at any later point either; and
    once [Watch] has returned it never runs again nor adds an event to
    the buffer. *)
Theorem watch_error_thrown_at_most_once path t r pending st :
  reachable (watch_start path t r pending) st ->
  (forall msg, bridge st = BSelect -> worker st = WSendErr msg ->
     exists st', bridge_fire SelError st = Some st' /\
       log st' = log st ++ [EThrow ("Sync watch ex failed: " ++ msg)%string] /\
       worker st' = WDone) /\
  length (filter is_throw (log st)) <= 1 /\
  (forall ms st', run ms st = Some st' -> length (filter is_throw (log st')) <= 1) /\
  (forall ms st', (forall p, worker st <> WWatch p) -> run ms st = Some st' ->
     (forall p, worker st' <> WWatch p) /\
     length (buf (eventChan st')) <= length (buf (eventChan st))).
Proof.
  intros Hreach. split; [|split; [|split]].
  - intros msg Hb Hw. unfold bridge_fire. rewrite Hb, Hw.
    eexists. split; [reflexivity|]. split; reflexivity.
  - eapply throws_at_most_one; eauto.
  - intros ms st' Hrun. eapply throws_at_most_one, reachable_run; eauto.
  - intros ms st' Hw Hrun. eapply run_after_watch_returned; eauto.
Qed.

Lemma watch_error_thrown_at_most_once_witness :
  length (filter is_throw (log (watch_start "/config" 10 0 []))) <= 1.
Proof.
  apply (watch_error_thrown_at_most_once "/config" 10 0 []
           (watch_start "/config" 10 0 [])).
  exists []. reflexivity.
Defined.

(** C6: both builtins validate their arguments before any I/O: with a
    wrong arity or a wrongly typed argument the call throws and does
    nothing else; with well-typed arguments the first effect is the
    dispatch to the store. *)
Theorem sync_builtins_validate_before_io :
  (forall args c, (forall path t r, args <> [OVString path; OVNumber t; OVNumber r]) ->
     exists msg, gohan_sync_watch args c = [EThrow msg]) /\
  (forall path t r c,
     gohan_sync_watch [OVString path; OVNumber t; OVNumber r] c =
     [ESpawnWatch path r; EStartTimer t] ++ watch_case_effects c) /\
  (forall args c, (forall path, args <> [OVString path]) ->
     exists msg, gohan_sync_fetch args c = [EThrow msg]) /\
  (forall path c, exists rest,
     gohan_sync_fetch [OVString path] c = ESpawnFetch path :: rest).
Proof.
  split; [|split; [|split]].
  - intros args c Hargs. unfold gohan_sync_watch, VerifyCallArguments.
    destruct args as [|a0 [|a1 [|a2 [|a3 rest]]]]; simpl; try (eexists; reflexivity).
    destruct a0; simpl; try (eexists; reflexivity).
    destruct a1; simpl; try (eexists; reflexivity).
    destruct a2; simpl; try (eexists; reflexivity).
    exfalso. eapply Hargs. reflexivity.
  - reflexivity.
  - intros args c Hargs. unfold gohan_sync_fetch, VerifyCallArguments.
    destruct args as [|a0 [|a1 rest]]; simpl; try (eexists; reflexivity).
    destruct a0; simpl; try (eexists; reflexivity).
    exfalso. eapply Hargs. reflexivity.
  - intros path c. eexists. reflexivity.
Qed.

Lemma sync_builtins_validate_before_io_witness :
  exists msg, gohan_sync_watch [OVString "/config"; OVString "10"; OVNumber 0] CTimeout
              = [EThrow msg].
Proof.
  apply (proj1 sync_builtins_validate_before_io). discriminate.
Defined.

Lemma returned_blocked_worker_stays m st ms st' :
  bridge st = BReturned -> worker st = WSendErr m -> run ms st = Some st' ->
  bridge st' = BReturned /\ worker st' = WSendErr m /\ log st' = log st.
Proof.
  revert st. induction ms as [|mv ms IH]; intros st Hb Hw Hrun; simpl in Hrun.
  - injection Hrun as <-. auto.
  - destruct (move mv st) as [st1|] eqn:Hm; [|discriminate].
    destruct mv as [b|wm|em]; simpl in Hm.
    + unfold bridge_fire in Hm. rewrite Hb in Hm. discriminate.
    + unfold worker_move in Hm. rewrite Hw in Hm. destruct wm; discriminate.
    + assert (bridge st1 = bridge st /\ worker st1 = worker st /\ log st1 = log st)
        as (E1 & E2 & E3).
      { unfold env_move in Hm. destruct em.
        - injection Hm as <-. auto.
        - destruct (interruptPending st); [discriminate|].
          injection Hm as <-. auto. }
      rewrite <- E3. apply IH; congruence.
Qed.

(** C7 (code defect): if the coordination link fails and the timer wins
    the [select], the call sends the stop signal and returns the empty
    object, but the watch goroutine is left blocked on the unbuffered
    [errorChan <- err] that nobody will read: whatever happens next, it
    never exits. *)
Theorem watch_timeout_leaves_worker_blocked :
  exists st,
    run leak_moves (watch_start "/config" 10 0 []) = Some st /\
    log st = init_log "/config" 10 0 ++ [ESendStop; EReturn emptyObject] /\
    buf (stopChan st) = [true] /\
    worker st = WSendErr "link down" /\
    (forall ms st', run ms st = Some st' ->
       worker st' = WSendErr "link down" /\ log st' = log st).
Proof.
  eexists. split; [reflexivity|]. split; [reflexivity|].
  split; [reflexivity|]. split; [reflexivity|].
  intros ms st' Hrun.
  pose proof (fun Hb Hw => returned_blocked_worker_stays "link down" _ ms st' Hb Hw Hrun)
    as K.
  destruct (K eq_refl eq_refl) as (_ & ? & ?). auto.
Qed.

End SyncBridgeFacts.

(** ** Properties of the template helpers *)

Module TemplateFacts.
Import Transaction Template.

Lemma map_lookup_delete k k' m :
  map_lookup k (map_delete k' m) = if String.eqb k' k then None else map_lookup k m.
Proof.
  unfold map_lookup, map_delete.
  induction m as [|[k0 v0] m IH]; simpl.
  - destruct (String.eqb k' k); reflexivity.
  - destruct (String.eqb k0 k') eqn:E1; simpl.
    + apply String.eqb_eq in E1; subst k0.
      rewrite IH. destruct (String.eqb k' k); reflexivity.
    + destruct (String.eqb k0 k) eqn:E2; simpl.
      * apply String.eqb_eq in E2; subst k0.
        rewrite String.eqb_sym, E1. reflexivity.
      * exact IH.
Qed.

Lemma map_lookup_delete_all k ks m :
  map_lookup k (fold_left (fun m k => map_delete k m) ks m) =
  if bool_decide (k ∈ ks) then None else map_lookup k m.
Proof.
  revert m; induction ks as [|k' ks IH]; intros m; simpl.
  - reflexivity.
  - rewrite IH, map_lookup_delete.
    destruct (String.eqb k' k) eqn:E;
      [apply String.eqb_eq in E | apply String.eqb_neq in E];
      repeat case_bool_decide; try reflexivity; set_solver.
Qed.

Section Passes.
Variable MaybeStringList : JValue -> list string.
Variable ContainsString : list string -> string -> bool.

Lemma fixEnumDefaultValue_lookup node k :
  map_lookup k (fixEnumDefaultValue MaybeStringList ContainsString node) =
  if String.eqb k "default" && dropsDefault MaybeStringList ContainsString node
  then None else map_lookup k node.
Proof.
  unfold fixEnumDefaultValue, dropsDefault.
  destruct (map_lookup "default" node) as [[d| | | | | | |]|];
    destruct (map_lookup "enum" node) as [enums|];
    try (rewrite andb_false_r; reflexivity).
  destruct (ContainsString (MaybeStringList enums) d); simpl.
  - rewrite andb_false_r; reflexivity.
  - rewrite andb_true_r, map_lookup_delete, String.eqb_sym. reflexivity.
Qed.

Lemma removeEmptyRequiredList_lookup node k :
  map_lookup k (removeEmptyRequiredList node) =
  if String.eqb k "required" && dropsRequired node then None else map_lookup k node.
Proof.
  unfold removeEmptyRequiredList, dropsRequired.
  destruct (map_lookup "required" node) as [[| | | |[|]|[|]| |]|];
    try (rewrite andb_false_r; reflexivity);
    rewrite andb_true_r, map_lookup_delete, String.eqb_sym; reflexivity.
Qed.

Lemma removeNotSupportedFormat_lookup node k :
  map_lookup k (removeNotSupportedFormat ContainsString node) =
  if String.eqb k "format" && dropsFormat ContainsString node
  then None else map_lookup k node.
Proof.
  unfold removeNotSupportedFormat, dropsFormat.
  destruct (map_lookup "format" node) as [[f| | | | | | |]|];
    try (rewrite andb_false_r; reflexivity).
  destruct (ContainsString allowedFormats f); simpl.
  - rewrite andb_false_r; reflexivity.
  - rewrite andb_true_r, map_lookup_delete, String.eqb_sym. reflexivity.
Qed.

Lemma fixNode_lookup node k :
  map_lookup k (fixNode MaybeStringList ContainsString node) =
  if bool_decide (k ∈ extendedProperties)
     || (String.eqb k "default" && dropsDefault MaybeStringList ContainsString node)
     || (String.eqb k "required" && dropsRequired node)
     || (String.eqb k "format" && dropsFormat ContainsString node)
  then None else map_lookup k node.
Proof.
  unfold fixNode.
  set (m0 := deleteGohanExtendedProperties node).
  assert (H0 : forall k, map_lookup k m0 =
            if bool_decide (k ∈ extendedProperties) then None else map_lookup k node)
    by (intros; apply map_lookup_delete_all).
  set (m1 := fixEnumDefaultValue MaybeStringList ContainsString m0).
  set (m2 := removeEmptyRequiredList m1).
  assert (Hd : dropsDefault MaybeStringList ContainsString m0 =
               dropsDefault MaybeStringList ContainsString node)
    by (unfold dropsDefault; rewrite !H0; reflexivity).
  assert (Hr : dropsRequired m1 = dropsRequired node).
  { unfold dropsRequired, m1. rewrite fixEnumDefaultValue_lookup, H0. reflexivity. }
  assert (Hf : dropsFormat ContainsString m2 = dropsFormat ContainsString node).
  { unfold dropsFormat, m2, m1.
    rewrite removeEmptyRequiredList_lookup, fixEnumDefaultValue_lookup, H0.
    reflexivity. }
  rewrite removeNotSupportedFormat_lookup, Hf. unfold m2.
  rewrite removeEmptyRequiredList_lookup, Hr. unfold m1.
  rewrite fixEnumDefaultValue_lookup, Hd, H0.
  destruct (bool_decide (k ∈ extendedProperties));
    destruct (String.eqb k "default" && _);
    destruct (String.eqb k "required" && _);
    destruct (String.eqb k "format" && _); reflexivity.
Qed.

Lemma key_in_lookup k m :
  key_in k m = match map_lookup k m with Some _ => true | None => false end.
Proof.
  unfold key_in, map_lookup.
  induction m as [|[k0 v0] m IH]; simpl; [reflexivity|].
  destruct (String.eqb k0 k); [reflexivity | exact IH].
Qed.

Lemma key_in_fixNode k m :
  key_in k (fixNode MaybeStringList ContainsString m) = true -> k ∉ extendedProperties.
Proof.
  rewrite key_in_lookup, fixNode_lookup. intros H Hin.
  rewrite bool_decide_true in H by exact Hin. discriminate.
Qed.

Ltac clean_entries IH m :=
  let keep := fresh "keep" in
  let Hk := fresh "Hk" in
  let IHm := fresh "IHm" in
  set (keep := fun k => key_in k (fixNode _ _ m));
  assert (Hk : forall k, keep k = true -> k ∉ extendedProperties)
    by (intros ?; apply key_in_fixNode);
  clearbody keep; clear -IH Hk; revert m;
  fix IHm 1; intros [|[? ?] ?]; [reflexivity|]; cbn;
  match goal with
  | |- context [keep ?k] =>
      let E := fresh "E" in
      destruct (keep k) eqn:E;
      [cbn; rewrite bool_decide_false by (apply Hk, E); rewrite IH; apply IHm
      | apply IHm]
  end.

Lemma fixValue_clean v :
  noExtendedValue (fixValue MaybeStringList ContainsString v) = true.
Proof.
  revert v. fix IH 1. intros [s|n|b| |xs|xs|m|mm]; try reflexivity.
  - cbn [fixValue noExtendedValue]. clean_entries IH m.
  - cbn [fixValue noExtendedValue]. revert mm.
    fix IHmm 1. intros [|[k m] mm]; [reflexivity|]. cbn.
    rewrite IHmm, andb_true_r. clear IHmm mm k. clean_entries IH m.
Qed.

(** X2: after [fixPropertyTree], no extended property is left in the node,
    nor in any map reached through map values and maps of maps (values
    inside lists are not visited). *)
Theorem fixPropertyTree_clean node :
  noExtendedValue (JMap (fixPropertyTree MaybeStringList ContainsString node)) = true.
Proof.
  pose proof (fixValue_clean (JMap node)) as H.
  unfold fixPropertyTree. cbn [fixValue] in *. exact H.
Qed.

(** X1: after [fixPropertyTree], a key of the node is gone exactly when it
    is one of the Gohan extended properties, or it is ["default"] holding a
    string that [enum] does not list, or ["required"] holding an empty list,
    or ["format"] holding an unsupported format; every other key keeps its
    value, itself fixed recursively. *)
Theorem fixPropertyTree_lookup node k :
  map_lookup k (fixPropertyTree MaybeStringList ContainsString node) =
  if bool_decide (k ∈ extendedProperties)
     || (String.eqb k "default" && dropsDefault MaybeStringList ContainsString node)
     || (String.eqb k "required" && dropsRequired node)
     || (String.eqb k "format" && dropsFormat ContainsString node)
  then None
  else option_map (fixValue MaybeStringList ContainsString) (map_lookup k node).
Proof.
  assert (Hkeep : key_in k (fixNode MaybeStringList ContainsString node) =
    if bool_decide (k ∈ extendedProperties)
       || (String.eqb k "default" && dropsDefault MaybeStringList ContainsString node)
       || (String.eqb k "required" && dropsRequired node)
       || (String.eqb k "format" && dropsFormat ContainsString node)
    then false else key_in k node).
  { rewrite !key_in_lookup, fixNode_lookup. destruct (_ || _); reflexivity. }
  unfold fixPropertyTree. cbn [fixValue].
  set (keep := fun k => key_in k (fixNode MaybeStringList ContainsString node)).
  assert (Hk : keep k = if bool_decide (k ∈ extendedProperties)
       || (String.eqb k "default" && dropsDefault MaybeStringList ContainsString node)
       || (String.eqb k "required" && dropsRequired node)
       || (String.eqb k "format" && dropsFormat ContainsString node)
    then false else key_in k node) by exact Hkeep.
  clearbody keep. clear Hkeep.
  destruct (_ || _) eqn:Hd; clear Hd.
  - induction node as [|[k0 x] m IH]; [reflexivity|]. cbn.
    destruct (keep k0) eqn:E; [|exact IH].
    unfold map_lookup in *; cbn. destruct (String.eqb k0 k) eqn:E2; [|exact IH].
    apply String.eqb_eq in E2; subst k0. congruence.
  - induction node as [|[k0 x] m IH]; [reflexivity|]. cbn.
    unfold key_in in Hk; cbn in Hk.
    destruct (String.eqb k0 k) eqn:E2.
    + apply String.eqb_eq in E2; subst k0. cbn in Hk.
      rewrite Hk. unfold map_lookup; cbn. rewrite String.eqb_refl. reflexivity.
    + cbn in Hk. destruct (keep k0).
      * unfold map_lookup in *; cbn. rewrite E2. exact (IH Hk).
      * unfold map_lookup in *; cbn. rewrite E2. exact (IH Hk).
Qed.


End Passes.

Lemma string_app_cons c a x : String c a ++ x = String c (a ++ x).
Proof. reflexivity. Qed.

Lemma swaggerPathGo_in_cons c r :
  swaggerPathGo true (String c r) =
  if Ascii.eqb c "/" then String "}" (String "/" (swaggerPathGo false r))
  else String c (swaggerPathGo true r).
Proof. reflexivity. Qed.

Lemma swaggerPathGo_colon_cons c r :
  swaggerPathGo false (String ":" (String c r)) =
  if Ascii.eqb c "/" then String ":" (swaggerPathGo false (String c r))
  else String "{" (String c (swaggerPathGo true r)).
Proof. reflexivity. Qed.

Lemma swaggerPathGo_out_cons c r :
  Ascii.eqb c ":" = false ->
  swaggerPathGo false (String c r) = String c (swaggerPathGo false r).
Proof. intros E. cbn. rewrite E. reflexivity. Qed.

Lemma swaggerPathGo_slash : forall a inParam b,
  swaggerPathGo inParam (a ++ String "/" b) =
  swaggerPathGo inParam a ++ String "/" (swaggerPathGo false b).
Proof.
  fix IH 1. intros [|c a] inParam b.
  - destruct inParam; reflexivity.
  - rewrite string_app_cons. destruct inParam.
    + rewrite !swaggerPathGo_in_cons.
      destruct (Ascii.eqb c "/"); rewrite IH, ?string_app_cons; reflexivity.
    + destruct (Ascii.eqb c ":") eqn:E.
      * apply Ascii.eqb_eq in E; subst c.
        destruct a as [|c' a'] eqn:Ea.
        -- reflexivity.
        -- rewrite string_app_cons, !swaggerPathGo_colon_cons.
           destruct (Ascii.eqb c' "/").
           ++ rewrite <- string_app_cons, <- Ea, (IH a false b), Ea.
              rewrite ?string_app_cons; reflexivity.
           ++ rewrite IH. rewrite ?string_app_cons; reflexivity.
      * rewrite !swaggerPathGo_out_cons by exact E. rewrite IH. rewrite ?string_app_cons; reflexivity.
Qed.



Lemma swaggerPathGo_plain : forall s, has_char ":" s = false -> swaggerPathGo false s = s.
Proof.
  induction s as [|c s IH]; intros H; [reflexivity|].
  cbn in H. apply orb_false_iff in H as [Hc Hs].
  rewrite swaggerPathGo_out_cons by exact Hc. f_equal. apply IH, Hs.
Qed.

Lemma swaggerPathGo_param : forall name, has_char "/" name = false ->
  swaggerPathGo true name = name ++ "}".
Proof.
  induction name as [|c s IH]; intros H; [reflexivity|].
  cbn in H. apply orb_false_iff in H as [Hc Hs].
  rewrite swaggerPathGo_in_cons, Hc, IH by exact Hs. reflexivity.
Qed.

(** X3: [toSwaggerPath] works segment by segment: it commutes with joining
    by ["/"], leaves a path without [":"] unchanged, and turns a segment
    [p:name] ([p] without [":"]) into [p{name}], a trailing [":"] being
    kept. *)
Theorem toSwaggerPath_segments :
  (forall a b, toSwaggerPath (a ++ "/" ++ b) = toSwaggerPath a ++ "/" ++ toSwaggerPath b) /\
  (forall s, has_char ":" s = false -> toSwaggerPath s = s) /\
  (forall p name, has_char ":" p = false -> has_char "/" name = false ->
     toSwaggerPath (p ++ ":" ++ name) =
     p ++ (if String.eqb name "" then ":" else "{" ++ name ++ "}")).
Proof.
  unfold toSwaggerPath. split; [|split].
  - intros a b. apply swaggerPathGo_slash.
  - apply swaggerPathGo_plain.
  - intros p name Hp Hn.
    induction p as [|c p IH]; cbn in Hp.
    + destruct name as [|c' name']; [reflexivity|].
      cbn in Hn. apply orb_false_iff in Hn as [Hc Hn].
      change ("" ++ ":" ++ String c' name') with (String ":" (String c' name')).
      rewrite swaggerPathGo_colon_cons, Hc, swaggerPathGo_param by exact Hn.
      reflexivity.
    + apply orb_false_iff in Hp as [Hc Hp].
      rewrite string_app_cons, swaggerPathGo_out_cons by exact Hc.
      rewrite IH by exact Hp. reflexivity.
Qed.

Lemma elem_of_resources_fold r l (acc : gset string) :
  r ∈ foldl (fun (acc : gset string) s => {[resource_group s]} ∪ acc) acc l <->
  r ∈ acc \/ exists s, In s l /\ resource_group s = r.
Proof.
  revert acc; induction l as [|s l IH]; intros acc; cbn.
  - split; [tauto|]. intros [H|[s [[] _]]]; exact H.
  - rewrite IH. split.
    + intros [H|[s' [Hin Hr]]].
      * apply elem_of_union in H as [H|H].
        -- apply elem_of_singleton in H. right. exists s. auto.
        -- left. exact H.
      * right. exists s'. auto.
    + intros [H|[s' [[<-|Hin] Hr]]].
      * left. apply elem_of_union. right. exact H.
      * left. apply elem_of_union. left. apply elem_of_singleton. auto.
      * right. exists s'. auto.
Qed.

(** X4: [getAllResourcesFromSchemas] lists each resource group once, and
    exactly the groups of the given schemas, a schema without a string
    ["resource_group"] counting as group [""]. *)
Theorem getAllResourcesFromSchemas_spec schemasList :
  NoDup (getAllResourcesFromSchemas schemasList) /\
  forall r, In r (getAllResourcesFromSchemas schemasList) <->
            exists s, In s (concat schemasList) /\ resource_group s = r.
Proof.
  unfold getAllResourcesFromSchemas. split.
  - apply NoDup_elements.
  - intros r. rewrite <- list_elem_of_In, elem_of_elements, elem_of_resources_fold.
    split; [intros [H|H]; [set_solver|exact H] | intros H; right; exact H].
Qed.

Lemma in_resource_true r s :
  in_resource r s = true <-> Metadata s !! "resource_group" = Some (GoString r).
Proof.
  unfold in_resource. destruct (Metadata s !! "resource_group") as [[| | | |]|];
    split; intros H; try discriminate; try congruence.
  - apply String.eqb_eq in H. congruence.
  - apply String.eqb_eq. congruence.
Qed.

(** X5: [saveAllResources] puts a schema with string ["resource_group"] [g]
    into the file [g.json] and into no other; a schema without one is put
    into no file, although a file [.json] is still written. *)
Theorem saveAllResources_placement schemas schemasCRUD s :
  In s schemas ->
  match Metadata s !! "resource_group" with
  | Some (GoString g) =>
      (exists ss cs, In (g ++ ".json", ss, cs) (saveAllResources schemas schemasCRUD) /\ In s ss) /\
      (forall f ss cs, In (f, ss, cs) (saveAllResources schemas schemasCRUD) -> In s ss ->
                       f = g ++ ".json")
  | _ =>
      (forall f ss cs, In (f, ss, cs) (saveAllResources schemas schemasCRUD) -> ~ In s ss) /\
      (exists ss cs, In (".json", ss, cs) (saveAllResources schemas schemasCRUD))
  end.
Proof.
  intros Hs. unfold saveAllResources.
  assert (Hall : forall r, (exists s', In s' (concat [schemas; schemasCRUD]) /\ resource_group s' = r) ->
            In (r ++ ".json", filerSchemasByResource r schemas, filerSchemasByResource r schemasCRUD)
               (map (fun resource => (resource ++ ".json", filerSchemasByResource resource schemas,
                      filerSchemasByResource resource schemasCRUD))
                    (getAllResourcesFromSchemas [schemas; schemasCRUD]))).
  { intros r Hr. apply in_map_iff. exists r. split; [reflexivity|].
    apply (proj2 (getAllResourcesFromSchemas_spec _)). exact Hr. }
  assert (Hin : In s (concat [schemas; schemasCRUD]))
    by (cbn; rewrite app_nil_r; apply in_or_app; left; exact Hs).
  destruct (Metadata s !! "resource_group") as [v|] eqn:Hm.
  1: destruct v as [t|g|z|b|] ;
    [ | split | | | ].
  all: try (split;
    [ intros f ss cs Hf Hss; apply in_map_iff in Hf as [r [Heq _]];
      injection Heq as _ <- _; unfold filerSchemasByResource in Hss;
      apply filter_In in Hss as [_ Hr]; apply in_resource_true in Hr; congruence
    | eexists _, _; apply (Hall ""); exists s; split; [exact Hin|];
      unfold resource_group; rewrite Hm; reflexivity ]).
  - exists (filerSchemasByResource g schemas), (filerSchemasByResource g schemasCRUD).
    split.
    + apply Hall. exists s. split; [exact Hin|]. unfold resource_group; rewrite Hm; reflexivity.
    + unfold filerSchemasByResource. apply filter_In. split; [exact Hs|].
      apply in_resource_true. exact Hm.
  - intros f ss cs Hf Hss. apply in_map_iff in Hf as [r [Heq _]].
    injection Heq as <- <- _. unfold filerSchemasByResource in Hss.
    apply filter_In in Hss as [_ Hr]. apply in_resource_true in Hr. congruence.
Qed.

Lemma saveAllResources_placement_witness :
  let s0 := {| SchemaID := "network"; URL := "/v2.0/networks"; Metadata := ∅;
               Actions := [] |} in
  In s0 [s0] /\
  (forall f ss cs, In (f, ss, cs) (saveAllResources [s0] []) -> ~ In s0 ss) /\
  (exists ss cs, In (".json", ss, cs) (saveAllResources [s0] [])).
Proof.
  intros s0.
  assert (H : In s0 [s0]) by (left; reflexivity).
  split; [exact H|].
  exact (saveAllResources_placement [s0] [] s0 H).
Defined.

Section Policies.
Variables (principal : string) (policies : list Policy).

Let matchedPolicies := filterPolicies principal policies.
Let nobodyPolicies :=
  if String.eqb principal "Nobody" then [] else filterPolicies "Nobody" policies.
Let schemaCopy (s : TSchema) :=
  with_actions s (filterActions s nobodyPolicies matchedPolicies).

(** X6: [filterSchemasForPolicy] keeps, in order, the schemas whose URL some
    policy of the principal matches, each copied with its filtered
    actions; the copy goes to the first list when the first such policy
    has action ["read"], to the second list otherwise. *)
Theorem filterSchemasForPolicy_split schemas :
  filterSchemasForPolicy principal policies schemas =
  (map schemaCopy
     (List.filter (fun s => match getMatchingPolicy s matchedPolicies with
                            | Some q => String.eqb (PolicyAction q) "read"
                            | None => false end) schemas),
   map schemaCopy
     (List.filter (fun s => match getMatchingPolicy s matchedPolicies with
                            | Some q => negb (String.eqb (PolicyAction q) "read")
                            | None => false end) schemas)).
Proof.
  unfold filterSchemasForPolicy. fold matchedPolicies nobodyPolicies.
  induction schemas as [|s rest IH]; [reflexivity|]. cbn.
  rewrite IH. destruct (getMatchingPolicy s matchedPolicies) as [q|]; [|reflexivity].
  destruct (String.eqb (PolicyAction q) "read"); reflexivity.
Qed.

Lemma filter_sublist_of {A} (f : A -> bool) (l : list A) :
  List.filter f l `sublist_of` l.
Proof.
  induction l as [|x l IH]; cbn; [constructor|].
  destruct (f x); [apply sublist_skip | apply sublist_cons]; exact IH.
Qed.

(** X7: every schema output by [filterSchemasForPolicy] is a copy of an input
    schema matched by a policy of the principal; its actions are a sublist
    of the original, and an action is kept exactly when some policy of the
    principal matching the URL allows it and (unless the principal is
    ["Nobody"]) no ["Nobody"] policy, whatever its resource, names its ID. *)
Theorem filterSchemasForPolicy_actions schemas s' :
  In s' (fst (filterSchemasForPolicy principal policies schemas) ++
         snd (filterSchemasForPolicy principal policies schemas)) ->
  exists s, In s schemas /\ SchemaID s' = SchemaID s /\ URL s' = URL s /\
    Metadata s' = Metadata s /\
    (exists q, In q policies /\ Principal q = principal /\ PathMatchString q (URL s) = true) /\
    Actions s' `sublist_of` Actions s /\
    forall a, In a (Actions s') <->
      In a (Actions s) /\
      (principal = "Nobody" \/
       forall q, In q policies -> Principal q = "Nobody" -> PolicyAction q <> ActionID a) /\
      exists q, In q policies /\ Principal q = principal /\
                PathMatchString q (URL s) = true /\ isMatchingPolicy a q = true.
Proof.
  rewrite filterSchemasForPolicy_split. cbn [fst snd]. intros Hin.
  apply in_app_or in Hin.
  assert (Hcopy : exists s, In s schemas /\ s' = schemaCopy s /\
            exists q, getMatchingPolicy s matchedPolicies = Some q).
  { destruct Hin as [Hin|Hin]; apply in_map_iff in Hin as [s [<- Hs]];
      apply filter_In in Hs as [Hs Hq]; exists s; (split; [exact Hs|split; [reflexivity|]]);
      destruct (getMatchingPolicy s matchedPolicies) as [q|]; [eauto|discriminate| eauto | discriminate]. }
  clear Hin. destruct Hcopy as [s [Hs [-> [q Hq]]]].
  exists s. split; [exact Hs|]. cbn. split; [reflexivity|]. split; [reflexivity|].
  split; [reflexivity|]. split.
  { unfold getMatchingPolicy in Hq. apply find_some in Hq as [Hq Hm].
    unfold matchedPolicies, filterPolicies in Hq. apply filter_In in Hq as [Hq Hp].
    apply String.eqb_eq in Hp. eauto. }
  split; [apply filter_sublist_of|].
  intros a. unfold filterActions. rewrite filter_In, andb_true_iff, negb_true_iff.
  unfold canUseAction. rewrite existsb_exists.
  split.
  - intros [Ha [Hn [q' [Hq' Hm]]]]. split; [exact Ha|]. split.
    + unfold nobodyPolicies in Hn. destruct (String.eqb principal "Nobody") eqn:Ep.
      * left. apply String.eqb_eq, Ep.
      * right. intros q0 Hq0 Hp0 Heq.
        assert (Hex : hasMatchingPolicy a (filterPolicies "Nobody" policies) = true).
        { unfold hasMatchingPolicy. apply existsb_exists. exists q0. split.
          - apply filter_In. split; [exact Hq0|]. apply String.eqb_eq, Hp0.
          - apply String.eqb_eq. congruence. }
        congruence.
    + unfold matchedPolicies, filterPolicies in Hq'. apply filter_In in Hq' as [Hq' Hp].
      apply andb_true_iff in Hm as [Hm1 Hm2].
      exists q'. repeat split; auto. apply String.eqb_eq, Hp.
  - intros [Ha [Hn [q' [Hq' [Hp [Hm1 Hm2]]]]]]. split; [exact Ha|]. split.
    + unfold nobodyPolicies. destruct (String.eqb principal "Nobody") eqn:Ep; [reflexivity|].
      destruct Hn as [Hn|Hn]; [apply String.eqb_neq in Ep; contradiction|].
      destruct (hasMatchingPolicy a (filterPolicies "Nobody" policies)) eqn:Eh; [|reflexivity].
      unfold hasMatchingPolicy in Eh. apply existsb_exists in Eh as [q0 [Hq0 Heq]].
      apply filter_In in Hq0 as [Hq0 Hp0]. apply String.eqb_eq in Hp0, Heq.
      exfalso. apply (Hn q0 Hq0 Hp0). congruence.
    + exists q'. split.
      * unfold matchedPolicies, filterPolicies. apply filter_In. split; [exact Hq'|].
        apply String.eqb_eq, Hp.
      * rewrite Hm1, Hm2. reflexivity.
Qed.
End Policies.

Lemma filterSchemasForPolicy_actions_witness :
  let pol := [{| Principal := "admin"; PolicyAction := "read";
                 PathMatchString := fun u => String.eqb u "/v2.0/networks" |}] in
  let s0 := {| SchemaID := "network"; URL := "/v2.0/networks"; Metadata := ∅;
               Actions := [{| ActionID := "reboot"; Method := "POST" |};
                           {| ActionID := "show"; Method := "GET" |}] |} in
  let s' := with_actions s0 [{| ActionID := "show"; Method := "GET" |}] in
  In s' (fst (filterSchemasForPolicy "admin" pol [s0]) ++
         snd (filterSchemasForPolicy "admin" pol [s0])) /\
  exists s, In s [s0] /\ Actions s' `sublist_of` Actions s /\
    ~ In {| ActionID := "reboot"; Method := "POST" |} (Actions s').
Proof.
  intros pol s0 s'.
  assert (H : In s' (fst (filterSchemasForPolicy "admin" pol [s0]) ++
                     snd (filterSchemasForPolicy "admin" pol [s0])))
    by (left; reflexivity).
  split; [exact H|].
  destruct (filterSchemasForPolicy_actions "admin" pol [s0] s' H)
    as (s & Hs & _ & _ & _ & _ & Hsub & Ha).
  exists s. split; [exact Hs|]. split; [exact Hsub|].
  intros Hin. apply Ha in Hin as (_ & _ & q & Hq & _ & _ & Hm).
  destruct Hq as [<-|[]]. discriminate.
Defined.
End TemplateFacts.

(** ** Properties of module loading and the handler loop *)

Module GohanCoreFacts.
Import SyncBridge GohanCore.

Section RequireFacts.
Variable RawModule : Type.
Variable RequireModule : string -> RawModule * option string.
Variable ToValue : RawModule -> OttoValue * option string.
Variable MottoRequire : string -> OttoValue * option string.

Lemma requireFromOtto_error name v e :
  snd (requireFromOtto RequireModule ToValue name) = (v, Some e) -> v = OVUndefined.
Proof.
  unfold requireFromOtto. destruct (RequireModule name) as [raw [e1|]]; cbn.
  - congruence.
  - destruct (ToValue raw) as [m [e2|]]; cbn; congruence.
Qed.

(** X8: [require] asks the Go extension registry only when the npm loader
    fails, and then returns the registry's result; whenever it returns an
    error the value is [undefined]. *)
Theorem require_fallback name :
  let '(logs, (value, err)) := require RequireModule ToValue MottoRequire name in
  (In (LDebugOtto name) logs <-> exists e, snd (MottoRequire name) = Some e) /\
  (value, err) = match MottoRequire name with
                 | (v, None) => (v, None)
                 | (_, Some _) => snd (requireFromOtto RequireModule ToValue name)
                 end /\
  (forall e, err = Some e -> value = OVUndefined).
Proof.
  unfold require, requireFromMotto.
  destruct (MottoRequire name) as [v [e|]] eqn:Hm; cbn.
  - destruct (requireFromOtto RequireModule ToValue name) as [l2 [v2 err2]] eqn:Ho.
    assert (Hl2 : l2 = [LDebugOtto name]).
    { revert Ho. unfold requireFromOtto.
      destruct (RequireModule name) as [raw [e1|]]; cbn; [congruence|].
      destruct (ToValue raw) as [m [e2|]]; cbn; congruence. }
    subst l2. split; [|split; [reflexivity|]].
    + split; [intros _; eauto|]. intros _. cbn. tauto.
    + intros e' ->. apply (requireFromOtto_error name v2 e'). rewrite Ho. reflexivity.
  - split; [|split; [reflexivity| discriminate]].
    split; [intros [H|[]]; discriminate | intros [e H]; discriminate].
Qed.
End RequireFacts.

Lemma ctx_get_set k k' v c :
  ctx_get k (ctx_set k' v c) = if String.eqb k' k then v else ctx_get k c.
Proof.
  unfold ctx_get. induction c as [|[k0 v0] c IH]; cbn.
  - destruct (String.eqb k' k); reflexivity.
  - destruct (String.eqb k0 k') eqn:E1; cbn.
    + apply String.eqb_eq in E1; subst k0.
      destruct (String.eqb k' k); reflexivity.
    + destruct (String.eqb k0 k) eqn:E2; [|exact IH].
      apply String.eqb_eq in E2; subst k0. rewrite String.eqb_sym, E1. reflexivity.
Qed.

(** X9: the handler loop of [gohan_handle_event] over [hs1 ++ hs2] runs [hs1]
    and then, unless a non-[BaseException] value escaped from [hs1], runs
    [hs2] on the context [hs1] left. *)
Theorem handle_loop_app event_type hs1 hs2 context :
  handle_loop event_type (hs1 ++ hs2) context =
  let '(l1, c1, r1) := handle_loop event_type hs1 context in
  match r1 with
  | Some v => (l1, c1, Some v)
  | None => let '(l2, c2, r2) := handle_loop event_type hs2 c1 in ((l1 ++ l2)%list, c2, r2)
  end.
Proof.
  revert context. induction hs1 as [|h hs1 IH]; intros context; cbn.
  - destruct (handle_loop event_type hs2 context) as [[l c] r]; reflexivity.
  - destruct (h context) as [context1 thrown].
    destruct (match thrown with Some t => Some t | None => _ end) as [[e|v]|].
    + rewrite IH. destruct (handle_loop event_type hs1 _) as [[l1 c1] [v1|]]; [reflexivity|].
      destruct (handle_loop event_type hs2 c1) as [[l2 c2] r2]. reflexivity.
    + reflexivity.
    + rewrite IH. destruct (handle_loop event_type hs1 _) as [[l1 c1] [v1|]]; [reflexivity|].
      destruct (handle_loop event_type hs2 c1) as [[l2 c2] r2]. reflexivity.
Qed.

(** X10: each handler run by [gohan_handle_event] is bracketed by a push of
    the log module and its restore, also when a value escapes; all handlers
    run when none escapes. *)
Theorem handle_loop_log event_type hs context :
  let '(l, c, r) := handle_loop event_type hs context in
  exists n, n <= length hs /\
    l = concat (repeat [LogPush event_type; LogRestore] n) /\
    (r = None -> n = length hs).
Proof.
  revert context. induction hs as [|h hs IH]; intros context; cbn.
  - exists 0. repeat split; lia.
  - destruct (h context) as [context1 thrown].
    destruct (match thrown with Some t => Some t | None => _ end) as [[e|v]|].
    + specialize (IH (ctx_set "exception_message" (OVString (event_type ++ ": " ++ toString e))
                        (ctx_set "exception" (toDict e) context1))).
      destruct (handle_loop event_type hs _) as [[l c] r].
      destruct IH as [n [Hn [-> Hr]]]. exists (S n). repeat split; [lia|].
      intros H. rewrite (Hr H). reflexivity.
    + exists 1. repeat split; [lia|]. discriminate.
    + specialize (IH context1).
      destruct (handle_loop event_type hs _) as [[l c] r].
      destruct IH as [n [Hn [-> Hr]]]. exists (S n). repeat split; [lia|].
      intros H. rewrite (Hr H). reflexivity.
Qed.

(** X11: once [context.response_code] is set, each handler that throws
    nothing and keeps [response] and [response_code] ends in a
    [CustomException]: the loop throws nothing and leaves in [exception]
    and [exception_message] the dictionary and the text of
    [CustomException(response, response_code)]. *)
Theorem handle_loop_response_code event_type hs context :
  hs <> [] ->
  isUndefined (ctx_get "response_code" context) = false ->
  (forall h, In h hs -> forall c,
     snd (h c) = None /\
     ctx_get "response_code" (fst (h c)) = ctx_get "response_code" c /\
     ctx_get "response" (fst (h c)) = ctx_get "response" c) ->
  let '(l, c, r) := handle_loop event_type hs context in
  r = None /\
  ctx_get "exception" c =
    toDict (CustomException (ctx_get "response" context) (ctx_get "response_code" context)) /\
  ctx_get "exception_message" c =
    OVString (event_type ++ ": " ++
              toString (CustomException (ctx_get "response" context)
                                        (ctx_get "response_code" context))).
Proof.
  intros Hne. revert context. induction hs as [|h hs IH]; intros context Hrc Hh;
    [contradiction|]. cbn.
  destruct (Hh h (or_introl eq_refl) context) as [Ht [Hrc1 Hr1]].
  destruct (h context) as [context1 thrown]. cbn in Ht, Hrc1, Hr1. subst thrown.
  rewrite Hrc1, Hr1, Hrc.
  set (e := CustomException (ctx_get "response" context) (ctx_get "response_code" context)).
  set (context2 := ctx_set "exception_message" (OVString (event_type ++ ": " ++ toString e))
                     (ctx_set "exception" (toDict e) context1)).
  assert (H2rc : ctx_get "response_code" context2 = ctx_get "response_code" context)
    by (unfold context2; rewrite !ctx_get_set; cbn; exact Hrc1).
  assert (H2r : ctx_get "response" context2 = ctx_get "response" context)
    by (unfold context2; rewrite !ctx_get_set; cbn; exact Hr1).
  destruct hs as [|h' hs'].
  - cbn. split; [reflexivity|]. unfold context2. rewrite !ctx_get_set. cbn.
    split; reflexivity.
  - assert (Hrc2 : isUndefined (ctx_get "response_code" context2) = false)
      by (rewrite H2rc; exact Hrc).
    assert (Hh2 : forall h0, In h0 (h' :: hs') -> forall c,
       snd (h0 c) = None /\
       ctx_get "response_code" (fst (h0 c)) = ctx_get "response_code" c /\
       ctx_get "response" (fst (h0 c)) = ctx_get "response" c)
      by (intros h0 Hin; apply Hh; right; exact Hin).
    specialize (IH ltac:(discriminate) context2 Hrc2 Hh2).
    rewrite H2rc, H2r in IH.
    destruct (handle_loop event_type (h' :: hs') context2) as [[l c] r]. exact IH.
Qed.

Lemma handle_loop_response_code_witness :
  let hs : list Handler := [fun c => (c, None)] in
  let ctx : Context := [("response_code", OVNumber 400); ("response", OVString "denied")] in
  hs <> [] /\ isUndefined (ctx_get "response_code" ctx) = false /\
  (forall h, In h hs -> forall c,
     snd (h c) = None /\
     ctx_get "response_code" (fst (h c)) = ctx_get "response_code" c /\
     ctx_get "response" (fst (h c)) = ctx_get "response" c) /\
  let '(l, c, r) := handle_loop "pre_create" hs ctx in
  r = None /\
  ctx_get "exception" c =
    toDict (CustomException (ctx_get "response" ctx) (ctx_get "response_code" ctx)) /\
  ctx_get "exception_message" c =
    OVString ("pre_create" ++ ": " ++
              toString (CustomException (ctx_get "response" ctx) (ctx_get "response_code" ctx))).
Proof.
  intros hs ctx.
  assert (H1 : hs <> []) by discriminate.
  assert (H2 : isUndefined (ctx_get "response_code" ctx) = false) by reflexivity.
  assert (H3 : forall h, In h hs -> forall c,
     snd (h c) = None /\
     ctx_get "response_code" (fst (h c)) = ctx_get "response_code" c /\
     ctx_get "response" (fst (h c)) = ctx_get "response" c)
    by (intros h [<-|[]] c; auto).
  split; [exact H1|split; [exact H2|split; [exact H3|]]].
  exact (handle_loop_response_code "pre_create" hs ctx H1 H2 H3).
Defined.


(** X12: [gohan_register_handler] appends the handler to those of its event
    type (starting a list if there was none) and leaves the other event
    types alone. *)
Theorem gohan_register_handler_registered event_type func reg event_type' :
  registered event_type' (gohan_register_handler event_type func reg) =
  if String.eqb event_type' event_type
  then Some ((match registered event_type reg with Some hs => hs | None => [] end) ++ [func])%list
  else registered event_type' reg.
Proof.
  unfold registered. induction reg as [|[k hs] reg IH]; cbn.
  - destruct (String.eqb_spec event_type event_type'), (String.eqb_spec event_type' event_type);
      cbn; congruence.
  - destruct (String.eqb_spec k event_type) as [->|Hne]; cbn.
    + destruct (String.eqb_spec event_type event_type'), (String.eqb_spec event_type' event_type);
        cbn; try congruence;
      destruct (String.eqb_spec event_type event_type); cbn; congruence.
    + destruct (String.eqb_spec k event_type') as [->|Hne']; [|exact IH].
      destruct (String.eqb_spec event_type' event_type); cbn; congruence.
Qed.

Section NPMFacts.
Variable FindFileModule : string -> string * option string.
Variable StatIsDir : string -> option bool.

Lemma entryPointOf_found module :
  entryPointOf StatIsDir module <> "" ->
  StatIsDir (entryPointOf StatIsDir module) = Some false /\
  In (entryPointOf StatIsDir module) [module; module ++ ".js"; module ++ "/index.js"].
Proof.
  unfold entryPointOf.
  destruct (StatIsDir module) as [[|]|] eqn:E1; cbn;
    [| intros _; rewrite E1; auto |];
  (destruct (StatIsDir (module ++ ".js")) as [[|]|] eqn:E2; cbn;
    [| intros _; rewrite E2; auto |]);
  (destruct (StatIsDir (module ++ "/index.js")) as [[|]|] eqn:E3; cbn;
    [congruence | intros _; rewrite E3; auto 6 | congruence]).
Qed.

(** X13: in [loadNPMModules], a visible directory that [FindFileModule] cannot
    resolve, or that has no entry point, stops the loop: what follows it
    in [node_modules] is never registered. *)
Theorem loadNPMModules_break pre f post post' :
  FIsDir f = true ->
  String.prefix "." (FName f) = false ->
  snd (FindFileModule (FName f)) <> None \/
  entryPointOf StatIsDir (fst (FindFileModule (FName f))) = "" ->
  loadNPMModules FindFileModule StatIsDir (pre ++ f :: post) =
  loadNPMModules FindFileModule StatIsDir (pre ++ f :: post').
Proof.
  intros Hdir Hpre Hfail. induction pre as [|g pre IH]; cbn [loadNPMModules app].
  - rewrite Hdir, Hpre. cbn [andb negb].
    destruct (FindFileModule (FName f)) as [module [err|]]; [reflexivity|].
    cbn [fst snd] in Hfail. destruct Hfail as [Hfail|Hfail]; [congruence|].
    rewrite Hfail. reflexivity.
  - destruct (FIsDir g && negb (String.prefix "." (FName g))); [|exact IH].
    destruct (FindFileModule (FName g)) as [module [err|]]; [reflexivity|].
    destruct (String.eqb (entryPointOf StatIsDir module) ""); [reflexivity|].
    rewrite IH. reflexivity.
Qed.

(** X14: [loadNPMModules] registers only visible directories resolved by
    [FindFileModule], each with an entry point that exists, is not a
    directory and is one of [module], [module.js], [module/index.js]. *)
Theorem loadNPMModules_registered files name entryPoint :
  In (name, entryPoint) (loadNPMModules FindFileModule StatIsDir files) ->
  exists f, In f files /\ FName f = name /\ FIsDir f = true /\
    String.prefix "." name = false /\
    snd (FindFileModule name) = None /\
    entryPoint = entryPointOf StatIsDir (fst (FindFileModule name)) /\
    StatIsDir entryPoint = Some false /\
    In entryPoint [fst (FindFileModule name); fst (FindFileModule name) ++ ".js";
                   fst (FindFileModule name) ++ "/index.js"].
Proof.
  induction files as [|f files IH]; cbn [loadNPMModules]; [intros []|].
  destruct (FIsDir f) eqn:Hd, (String.prefix "." (FName f)) eqn:Hp; cbn [andb negb];
    try (intros H; destruct (IH H) as [f' [Hf' Rest]]; exists f'; split; [right; exact Hf'|exact Rest]).
  destruct (FindFileModule (FName f)) as [module [err|]] eqn:Hm; [intros []|].
  destruct (String.eqb_spec (entryPointOf StatIsDir module) "") as [He|He]; [intros []|].
  intros [Heq|H].
  - injection Heq as <- <-. exists f. rewrite Hm. cbn.
    destruct (entryPointOf_found module He) as [Hs Hin].
    repeat split; auto.
  - destruct (IH H) as [f' [Hf' Rest]]. exists f'. split; [right; exact Hf'|exact Rest].
Qed.

End NPMFacts.

Lemma loadNPMModules_break_witness :
  let find := fun name : string =>
    if String.eqb name "broken" then (""%string, Some "cannot find module"%string)
    else (("node_modules/" ++ name)%string, None) in
  let stat := fun _ : string => Some false in
  let broken := {| FName := "broken"; FIsDir := true |} in
  FIsDir broken = true /\ String.prefix "." (FName broken) = false /\
  (snd (find (FName broken)) <> None \/ entryPointOf stat (fst (find (FName broken))) = "") /\
  loadNPMModules find stat ([{| FName := "a"; FIsDir := true |}] ++ broken :: [{| FName := "b"; FIsDir := true |}]) =
  loadNPMModules find stat ([{| FName := "a"; FIsDir := true |}] ++ broken :: []).
Proof.
  intros find stat broken.
  assert (H1 : FIsDir broken = true) by reflexivity.
  assert (H2 : String.prefix "." (FName broken) = false) by reflexivity.
  assert (H3 : snd (find (FName broken)) <> None \/ entryPointOf stat (fst (find (FName broken))) = "")
    by (left; vm_compute; discriminate).
  split; [exact H1|split; [exact H2|split; [exact H3|]]].
  exact (loadNPMModules_break find stat [{| FName := "a"; FIsDir := true |}] broken
           [{| FName := "b"; FIsDir := true |}] [] H1 H2 H3).
Defined.

Lemma loadNPMModules_registered_witness :
  let find := fun name : string => (("node_modules/" ++ name)%string, @None string) in
  let stat := fun p : string =>
    if String.eqb p "node_modules/lodash/index.js" then Some false
    else if String.eqb p "node_modules/lodash" then Some true else None in
  let files := [{| FName := ".bin"; FIsDir := true |}; {| FName := "lodash"; FIsDir := true |}] in
  In ("lodash", "node_modules/lodash/index.js") (loadNPMModules find stat files) /\
  exists f, In f files /\ FName f = "lodash" /\ FIsDir f = true /\
    stat "node_modules/lodash/index.js" = Some false.
Proof.
  intros find stat files.
  assert (H : In ("lodash", "node_modules/lodash/index.js") (loadNPMModules find stat files))
    by (vm_compute; left; reflexivity).
  split; [exact H|].
  destruct (loadNPMModules_registered find stat files _ _ H)
    as (f & Hf & Hn & Hd & _ & _ & _ & Hs & _).
  exists f. auto.
Defined.
End GohanCoreFacts.

(** ** More properties of the sync bridge *)

Module SyncExtraFacts.
Import SyncBridge SyncDecode SyncBridgeFacts.
Local Close Scope string_scope.

Ltac observe_stop_tac :=
  match goal with
  | Hm : match chan_recv ?stop with _ => _ end = Some _ |- _ =>
      let x := fresh "x" in let stop' := fresh "stop'" in let Hr := fresh "Hr" in
      let Hb := fresh "Hb" in
      destruct (chan_recv stop) as [[x stop']|] eqn:Hr; [|discriminate];
      apply chan_recv_some in Hr as [Hb _];
      injection Hm as <-; unfold with_worker; simpl;
      match goal with
      | Hsel : ?br = BSelect -> _, Hret : forall v, ?br = BReturned -> _ |- _ =>
          destruct br;
          [ destruct (Hsel eq_refl) as (_ & ? & _); congruence
          | split; [discriminate|]; intros ? _ Hl;
            destruct (Hret _ eq_refl Hl); congruence ]
      end
  end.

Lemma event_path_move L0 m st st' :
  ((bridge st = BSelect -> log st = L0 /\ buf (stopChan st) = [] /\ worker st <> WDone) /\
   (forall v, bridge st = BReturned -> log st = L0 ++ [EReturn v] ->
              buf (stopChan st) = [] /\ worker st <> WDone)) ->
  move m st = Some st' ->
  ((bridge st' = BSelect -> log st' = L0 /\ buf (stopChan st') = [] /\ worker st' <> WDone) /\
   (forall v, bridge st' = BReturned -> log st' = L0 ++ [EReturn v] ->
              buf (stopChan st') = [] /\ worker st' <> WDone)).
Proof.
  destruct st as [ev stop w rev fired intr br lg]; simpl.
  intros [Hsel Hret] Hm.
  destruct m as [b|wm|em]; simpl in Hm.
  - unfold bridge_fire in Hm; simpl in Hm. destruct br; [|discriminate].
    destruct (Hsel eq_refl) as (-> & Hstop & Hw).
    destruct b.
    + destruct intr as [h|]; [|discriminate].
      destruct (chan_send stop true) as [stop'|]; [|discriminate].
      injection Hm as <-. unfold bridge_finish; simpl.
      split; [discriminate|]. intros v _ Hl. apply app_inv_head in Hl. discriminate.
    + destruct (chan_recv ev) as [[e ev']|]; [|discriminate].
      injection Hm as <-. unfold bridge_finish; simpl.
      split; [discriminate|]. intros v _ _. auto.
    + destruct fired; [|discriminate].
      destruct (chan_send stop true) as [stop'|]; [|discriminate].
      injection Hm as <-. unfold bridge_finish; simpl.
      split; [discriminate|]. intros v _ Hl. apply app_inv_head in Hl. discriminate.
    + destruct w as [|msg|]; try discriminate. injection Hm as <-.
      unfold bridge_finish; simpl.
      split; [discriminate|]. intros v _ Hl. apply app_inv_head in Hl. discriminate.
  - unfold worker_move in Hm; simpl in Hm.
    destruct w as [[|e rest]|msg|]; destruct wm; try discriminate.
    + observe_stop_tac.
    + injection Hm as <-. unfold with_worker; simpl.
      split; [intros Hb; destruct (Hsel Hb) as (? & ? & _); repeat split; congruence|].
      intros v Hb Hl. destruct (Hret v Hb Hl). split; congruence.
    + injection Hm as <-. unfold with_worker; simpl.
      split; [intros Hb; destruct (Hsel Hb) as (? & ? & _); repeat split; congruence|].
      intros v Hb Hl. destruct (Hret v Hb Hl). split; congruence.
    + observe_stop_tac.
    + injection Hm as <-. unfold with_worker; simpl.
      split; [intros Hb; destruct (Hsel Hb) as (? & ? & _); repeat split; congruence|].
      intros v Hb Hl. destruct (Hret v Hb Hl). split; congruence.
  - destruct em; [injection Hm as <-|destruct intr; [discriminate|injection Hm as <-]];
      unfold with_env; simpl; auto.
Qed.

Lemma event_path_run L0 ms st st' :
  ((bridge st = BSelect -> log st = L0 /\ buf (stopChan st) = [] /\ worker st <> WDone) /\
   (forall v, bridge st = BReturned -> log st = L0 ++ [EReturn v] ->
              buf (stopChan st) = [] /\ worker st <> WDone)) ->
  run ms st = Some st' ->
  ((bridge st' = BSelect -> log st' = L0 /\ buf (stopChan st') = [] /\ worker st' <> WDone) /\
   (forall v, bridge st' = BReturned -> log st' = L0 ++ [EReturn v] ->
              buf (stopChan st') = [] /\ worker st' <> WDone)).
Proof.
  revert st. induction ms as [|m ms IH]; intros st Hinv Hrun; simpl in Hrun.
  - injection Hrun as <-. exact Hinv.
  - destruct (move m st) as [st1|] eqn:Hm; [|discriminate].
    exact (IH st1 (event_path_move L0 m st st1 Hinv Hm) Hrun).
Qed.

(** X15: when [gohan_sync_watch] returns an event, the stop signal is never
    sent, so the watch goroutine never exits, whatever happens after the
    call. *)
Theorem watch_event_return_never_stops path timeoutMsec revision pending st e :
  reachable (watch_start path timeoutMsec revision pending) st ->
  log st = init_log path timeoutMsec revision ++ [EReturn (convertSyncEvent e)] ->
  forall ms st', run ms st = Some st' ->
    buf (stopChan st') = [] /\ worker st' <> WDone.
Proof.
  intros [ms0 H0] Hl ms st' Hrun.
  assert (Hst : bridge st = BReturned).
  { destruct (bridge st) eqn:Hb; [|reflexivity].
    destruct (watch_inv_reachable path timeoutMsec revision pending st
                (ex_intro _ ms0 H0)) as (_ & _ & _ & _ & _ & Hsel & _).
    destruct (Hsel Hb) as [Hl' _]. rewrite Hl' in Hl.
    apply (f_equal (@length _)) in Hl. rewrite length_app in Hl. simpl in Hl. lia. }
  assert (Hinv := event_path_run (init_log path timeoutMsec revision) (ms0 ++ ms)
                    (watch_start path timeoutMsec revision pending) st').
  rewrite run_app, H0 in Hinv.
  assert (Hlog : log st' = log st /\ bridge st' = BReturned).
  { clear -Hrun Hst. revert st Hrun Hst. induction ms as [|m ms IH]; intros st Hrun Hst;
      simpl in Hrun; [injection Hrun as <-; auto|].
    destruct (move m st) as [st1|] eqn:Hm; [|discriminate].
    assert (H1 : log st1 = log st /\ bridge st1 = BReturned).
    { destruct m as [b|wm|em]; simpl in Hm.
      - unfold bridge_fire in Hm. rewrite Hst in Hm. discriminate.
      - unfold worker_move in Hm.
        destruct (worker st) as [[|? ?]| |]; destruct wm; try discriminate;
          try (destruct (chan_recv (stopChan st)) as [[? ?]|]; [|discriminate]);
          injection Hm as <-; auto.
      - unfold env_move in Hm. destruct em;
          [|destruct (interruptPending st); [discriminate|]];
          injection Hm as <-; auto. }
    destruct H1 as [H1l H1b]. destruct (IH st1 Hrun H1b) as [Hl2 Hb2].
    split; congruence. }
  destruct Hlog as [Hlog Hb'].
  assert (Hws : (bridge (watch_start path timeoutMsec revision pending) = BSelect ->
             log (watch_start path timeoutMsec revision pending) = init_log path timeoutMsec revision /\
             buf (stopChan (watch_start path timeoutMsec revision pending)) = [] /\
             worker (watch_start path timeoutMsec revision pending) <> WDone) /\
            (forall v, bridge (watch_start path timeoutMsec revision pending) = BReturned ->
             log (watch_start path timeoutMsec revision pending) =
               init_log path timeoutMsec revision ++ [EReturn v] ->
             buf (stopChan (watch_start path timeoutMsec revision pending)) = [] /\
             worker (watch_start path timeoutMsec revision pending) <> WDone)).
  { split; [intros _; repeat split; discriminate | intros v Hb; discriminate]. }
  destruct (Hinv Hws Hrun) as [_ Hret].
  apply (Hret (convertSyncEvent e) Hb'). congruence.
Qed.

Lemma watch_event_return_never_stops_witness :
  let st0 := watch_start "/config"%string 10 0 [rev_event 1] in
  match run [MWorker WForward; MBridge SelEvent] st0 with
  | Some st =>
      reachable st0 st /\
      log st = init_log "/config"%string 10 0 ++ [EReturn (convertSyncEvent (rev_event 1))] /\
      (forall ms st', run ms st = Some st' -> buf (stopChan st') = [] /\ worker st' <> WDone)
  | None => False
  end.
Proof.
  intros st0. destruct (run [MWorker WForward; MBridge SelEvent] st0) as [st|] eqn:Hrun.
  - assert (Hr : reachable st0 st) by (exists [MWorker WForward; MBridge SelEvent]; exact Hrun).
    assert (Hl : log st = init_log "/config"%string 10 0 ++ [EReturn (convertSyncEvent (rev_event 1))])
      by (vm_compute in Hrun; injection Hrun as <-; reflexivity).
    split; [exact Hr|split; [exact Hl|]].
    exact (watch_event_return_never_stops "/config"%string 10 0 [rev_event 1] st (rev_event 1) Hr Hl).
  - vm_compute in Hrun. discriminate.
Defined.

Lemma parseSyncNode_convertSyncNode n :
  parseSyncNode (convertSyncNode n) = Some n.
Proof.
  revert n. fix IH 1. intros [k val r cs]. cbn.
  assert (Hc : (fix parseChildren (cs : list OttoValue) : option (list Node) :=
      match cs with
      | [] => Some []
      | c :: rest =>
          match parseSyncNode c, parseChildren rest with
          | Some n, Some ns => Some (n :: ns)
          | _, _ => None
          end
      end) (map convertSyncNode cs) = Some cs).
  { revert cs. fix IHc 1. intros [|c cs]; [reflexivity|]. cbn.
    rewrite IH, IHc. reflexivity. }
  rewrite Hc. reflexivity.
Qed.

(** X16: the values handed to scripts lose nothing: the node tree and the
    event are read back whole from them. *)
Theorem sync_values_round_trip :
  (forall n, parseSyncNode (convertSyncNode n) = Some n) /\
  (forall e, parseSyncEvent (convertSyncEvent e) = Some e).
Proof. split; [exact parseSyncNode_convertSyncNode | intros []; reflexivity]. Qed.
End SyncExtraFacts.
